(** * Zenai: audio codec, playback scheduler, captions, live streaming

    A shallow embedding of the parts of the Zenai front-end that carry
    behaviour of their own:

    - [gemini]            [decodeAudioData] of [services/gemini.ts];
    - [LiveSession]       the capture callback and the [onmessage] handler
                          of [components/LiveSession.tsx];
    - [MeditationPlayer]  [startAudio], [stopAudio], [togglePlay],
                          [updateProgress] and the effects of
                          [components/MeditationPlayer.tsx];
    - [App]               the intent handling of [startVoiceControl]
                          in [App.tsx];
    - [Codec]             [decodeBase64], [encodeBase64] and the data
                          URLs of [services/gemini.ts], with the frames
                          [LiveSession.tsx] sends;
    - [ChatBot]           [handleSend] and the recorder callback of
                          [components/ChatBot.tsx];
    - [LiveWire]          the [onmessage] handler on the message as it
                          arrives, with the reads of line 36 and
                          [decodeBase64].

    Numbers.  JavaScript numbers are IEEE doubles.  Here they are exact
    rationals ([Q]): clock readings, offsets and durations are only added,
    subtracted and compared, and a 16-bit sample divided by 32768 is exact
    in single precision already.  Rounding of doubles is not modelled, and
    neither are infinities; NaN appears only as the content of a
    [Float32Array] cell.

    Platform.  The typed arrays, the Web Audio nodes and the React runtime
    are not part of the repository.  Their behaviour is written out where
    the code relies on it, each time with the rule it follows. *)

From Stdlib Require Import ZArith QArith Qround Lia Lqa.
From Stdlib Require Import Strings.Byte.
From stdpp Require Import base option list strings gmap.

Local Open Scope Z_scope.

(* ===================================================================== *)
(** ** JavaScript values and conversions *)
(* ===================================================================== *)

Module Js.

(** The exceptions the modelled platform operations raise. *)
Inductive exception : Set :=
| RangeError             (* typed-array view over a buffer of the wrong size *)
| NotSupportedError      (* Web Audio: argument outside its nominal range *)
| TypeError              (* a property read on [undefined] *)
| InvalidCharacterError. (* [atob] on a string that is not base64 *)

(** A computation that returns or throws. *)
Definition result (A : Type) : Type := (exception + A)%type.

Definition throw {A} (e : exception) : result A := inl e.
Definition ret {A} (a : A) : result A := inr a.

Definition bind {A B} (r : result A) (k : A → result B) : result B :=
  match r with
  | inl e => inl e
  | inr a => k a
  end.

(** Rounding toward zero, the first step of every integer conversion. *)
Definition truncate (q : Q) : Z := Z.quot (Qnum q) (Z.pos (Qden q)).

(** ToInt16: truncate, reduce modulo 2^16, read the result as a signed
    16-bit integer.  This is the conversion applied by a store into an
    [Int16Array]. *)
Definition wrap16 (z : Z) : Z :=
  let m := z mod 65536 in
  if 32768 <=? m then m - 65536 else m.

Definition ToInt16 (q : Q) : Z := wrap16 (truncate q).

(** [Math.max] on two numbers. *)
Definition Math_max (a b : Q) : Q := if Qle_bool b a then a else b.

(** The number of iterations of [for (let i = 0; i < bound; i++)]: the
    naturals strictly below [bound]. *)
Definition iterations (bound : Q) : nat := Z.to_nat (Qceiling bound).

End Js.

Notation "'let!' x := e 'in' k" := (Js.bind e (fun x => k))
  (at level 10, x name, e at level 100, k at level 200).

(* ===================================================================== *)
(** ** The Web Audio objects the code creates *)
(* ===================================================================== *)

Module WebAudio.
Import Js.

(** A cell of a [Float32Array]. *)
Inductive sample : Set :=
| Num (q : Q)
| NaN.

(** An [AudioBuffer]: [channels] holds one [Float32Array] per channel,
    each [bufferLength] cells long. *)
Record AudioBuffer : Set := mkAudioBuffer {
  numberOfChannels : nat;
  bufferLength : nat;
  sampleRate : Q;
  channels : list (list sample)
}.

(** [buffer.duration], in seconds. *)
Definition duration (b : AudioBuffer) : Q :=
  (inject_Z (Z.of_nat (bufferLength b)) / sampleRate b)%Q.

(** An [AudioContext], created with the sample rate of its output.  Its
    clock, [currentTime], is read by the handlers; each handler below
    takes the reading as its argument [now].

    The other three fields describe the implementation behind the
    context: the largest channel count and the range of sample rates it
    accepts for a buffer.  The Web Audio standard requires every
    implementation to accept 1 to 32 channels and rates from 8000 to
    96000 Hz; the fields only say what it accepts beyond that. *)
Record AudioContext : Set := AudioContextOf {
  contextRate : Q;
  channelLimit : nat;
  lowestRate : Q;
  highestRate : Q
}.

(** [new AudioContext({ sampleRate })] on an implementation that accepts
    what the standard requires and no more. *)
Definition mkAudioContext (sampleRate : Q) : AudioContext :=
  AudioContextOf sampleRate 32 8000 96000.

(** The channel counts and sample rates [createBuffer] accepts. *)
Definition maxChannels (ctx : AudioContext) : nat := Nat.max 32 (channelLimit ctx).

Definition supportsChannels (ctx : AudioContext) (numberOfChannels : nat) : bool :=
  negb (numberOfChannels =? 0)%nat && (numberOfChannels <=? maxChannels ctx)%nat.

Definition supportsRate (ctx : AudioContext) (sampleRate : Q) : bool :=
  negb (Qle_bool sampleRate 0)
  && (Qle_bool (lowestRate ctx) sampleRate || Qle_bool 8000 sampleRate)
  && (Qle_bool sampleRate (highestRate ctx) || Qle_bool sampleRate 96000).

(** [ctx.createBuffer(numberOfChannels, length, sampleRate)].  [length]
    is declared [unsigned long]: the conversion drops the fractional part
    of the number passed.  The call raises NotSupportedError when an
    argument is zero, negative or outside the range the implementation
    accepts. *)
Definition createBuffer (ctx : AudioContext) (numberOfChannels : nat)
    (length sampleRate : Q) : result AudioBuffer :=
  let len := Z.to_nat (Qfloor length) in
  if negb (supportsChannels ctx numberOfChannels) || (len =? 0)%nat
     || negb (supportsRate ctx sampleRate)
  then throw NotSupportedError
  else ret (mkAudioBuffer numberOfChannels len sampleRate
              (replicate numberOfChannels (replicate len (Num 0)))).

(** The buffer with channel [channel] rewritten by [f]: what stores
    through the view returned by [getChannelData(channel)] amount to. *)
Definition updateChannel (channel : nat) (f : list sample → list sample)
    (buf : AudioBuffer) : AudioBuffer :=
  mkAudioBuffer (numberOfChannels buf) (bufferLength buf) (sampleRate buf)
                (alter f channel (channels buf)).

End WebAudio.

(* ===================================================================== *)
(** ** services/gemini.ts *)
(* ===================================================================== *)

Module gemini.
Import Js WebAudio.

(** One 16-bit two's complement element.  A typed array reads its
    buffer in the byte order of the platform, which is little-endian
    wherever browsers run. *)
Definition int16_of_bytes (lo hi : byte) : Z :=
  wrap16 (Z.of_N (Byte.to_N lo) + 256 * Z.of_N (Byte.to_N hi)).

(** [new Int16Array(buffer)]: a view over the whole buffer.  The
    constructor raises RangeError when the byte length is not a multiple
    of the element size.  The argument is [data.buffer]; every
    [Uint8Array] the repository decodes covers its whole buffer. *)
Fixpoint Int16Array (buffer : list byte) : result (list Z) :=
  match buffer with
  | [] => ret []
  | [_] => throw RangeError
  | lo :: hi :: rest =>
      let! elems := Int16Array rest in
      ret (int16_of_bytes lo hi :: elems)
  end.

(** [dataInt16[k] / 32768.0]; reading past the end gives [undefined],
    and [undefined / 32768.0] is NaN. *)
Definition scaled (dataInt16 : list Z) (k : nat) : sample :=
  match dataInt16 !! k with
  | Some z => Num (inject_Z z / 32768)
  | None => NaN
  end.

(** The inner loop over [i].  A typed-array store at an index past the
    end is ignored, as is [<[i:=x]>] on a list. *)
Definition fillChannel (dataInt16 : list Z) (numChannels channel : nat)
    (frameCount : Q) (channelData : list sample) : list sample :=
  foldl (fun cd i => <[i := scaled dataInt16 (i * numChannels + channel)]> cd)
        channelData (seq 0 (iterations frameCount)).

(** [decodeAudioData(data, ctx, sampleRate = 24000, numChannels = 1)].
    With [numChannels = 0] the quotient is infinite or NaN in JavaScript
    and 0 here; [createBuffer] throws on the channel count whatever the
    length. *)
Definition decodeAudioData (data : list byte) (ctx : AudioContext)
    (sampleRate : Q) (numChannels : nat) : result AudioBuffer :=
  let! dataInt16 := Int16Array data in
  let frameCount :=
    (inject_Z (Z.of_nat (length dataInt16)) / inject_Z (Z.of_nat numChannels))%Q in
  let! buffer := createBuffer ctx numChannels frameCount sampleRate in
  ret (foldl (fun buf channel =>
                updateChannel channel
                  (fillChannel dataInt16 numChannels channel frameCount) buf)
             buffer (seq 0 numChannels)).

(** The defaults of the two optional parameters. *)
Definition defaultSampleRate : Q := 24000.
Definition defaultNumChannels : nat := 1.

End gemini.

(* ===================================================================== *)
(** ** components/LiveSession.tsx *)
(* ===================================================================== *)

Module LiveSession.
Import Js WebAudio gemini.
Local Open Scope Q_scope.

(** The value stored at index [i] of the frame: [inputData[i] * 32768]
    converted by the store.  Past the end the read is [undefined], the
    product NaN, and NaN converts to 0. *)
Definition pcm (inputData : list Q) (i : nat) : Z :=
  match inputData !! i with
  | Some x => ToInt16 (x * 32768)
  | None => 0%Z
  end.

(** [processor.onaudioprocess]: one captured frame of float samples is
    stored, sample by sample, into a fresh [Int16Array] of the same
    length.  The result is the PCM frame that is sent; its base64
    wrapping is [Codec.realtimeInput]. *)
Definition onaudioprocess (inputData : list Q) : list Z :=
  let int16 := replicate (length inputData) 0%Z in
  foldl (fun a i => <[i := pcm inputData i]> a) int16 (seq 0 (length inputData)).

(** An [AudioBufferSourceNode] after [start(when)]. *)
Record SourceNode : Set := mkSourceNode {
  buffer : AudioBuffer;
  startedAt : Q;
  stopped : bool
}.

Definition stop (s : SourceNode) : SourceNode :=
  mkSourceNode (buffer s) (startedAt s) true.

(** The refs of the component.  [nodes] is every source node created so
    far; a node is named by its position there, and [sourcesRef] is the
    [Set] of the nodes added to it. *)
Record State : Type := mkState {
  audioContextRef : option AudioContext;
  nextStartTimeRef : Q;
  sourcesRef : gset nat;
  nodes : list SourceNode
}.

(** The refs once [startSession] has created the output context. *)
Definition opened : State :=
  mkState (Some (mkAudioContext 24000)) 0 ∅ [].

(** A server message once line 36 has been evaluated and the inline
    data decoded.  [data] is [None] when the inline data is absent or
    the empty string (both falsy); otherwise it holds the bytes
    [decodeBase64] returns for it.  The message as it arrives, with the
    cases in which line 36 or [decodeBase64] throws, is [LiveWire]. *)
Record Message : Set := mkMessage {
  data : option (list byte);
  interrupted : bool
}.

(** Lines 39 to 45: schedule one decoded chunk. *)
Definition schedule (now : Q) (buf : AudioBuffer) (st : State) : State :=
  let startAt := Math_max (nextStartTimeRef st) now in
  mkState (audioContextRef st)
          (startAt + duration buf)
          ({[ length (nodes st) ]} ∪ sourcesRef st)
          (nodes st ++ [mkSourceNode buf startAt false]).

(** Lines 48 to 50: the interrupted branch.  [forEach] visits the set in
    insertion order; stopping one node does not touch another, so the
    order in which [elements] lists them gives the same nodes. *)
Definition interrupt (st : State) : State :=
  mkState (audioContextRef st)
          0
          ∅
          (foldr (fun i ns => alter stop i ns) (nodes st)
                 (elements (sourcesRef st))).

(** [onmessage].  When decoding throws, the handler's promise rejects
    and nothing after the [await] runs. *)
Definition onmessage (now : Q) (msg : Message) (st : State) : result State :=
  let! st1 :=
    match data msg, audioContextRef st with
    | Some bytes, Some ctx =>
        let! buf := decodeAudioData bytes ctx defaultSampleRate defaultNumChannels in
        ret (schedule now buf st)
    | _, _ => ret st
    end in
  ret (if interrupted msg then interrupt st1 else st1).

(** The session after a list of messages, each with the clock reading
    its handler sees.  A handler that throws leaves the refs as they
    were. *)
Definition deliver (st : State) (m : Q * Message) : State :=
  match onmessage m.1 m.2 st with
  | inr st' => st'
  | inl _ => st
  end.

Definition run (ms : list (Q * Message)) (st : State) : State :=
  foldl deliver st ms.

(** A message that carries a decodable chunk and no interruption. *)
Definition chunk (ctx : AudioContext) (m : Q * Message) : Prop :=
  interrupted m.2 = false
  ∧ ∃ bytes buf, data m.2 = Some bytes
      ∧ decodeAudioData bytes ctx defaultSampleRate defaultNumChannels = ret buf.

(** The invariant of the session: the set holds positions of existing
    nodes only; a node that was not stopped is in the set and ends no
    later than the cursor; and of two such nodes the earlier one ends
    before the later one starts. *)
Definition queued (st : State) : Prop :=
  (∀ i, i ∈ sourcesRef st → (i < length (nodes st))%nat)
  ∧ (∀ i s, nodes st !! i = Some s → stopped s = false →
       i ∈ sourcesRef st
       ∧ startedAt s + duration (buffer s) <= nextStartTimeRef st)
  ∧ (∀ i j si sj, (i < j)%nat →
       nodes st !! i = Some si → stopped si = false →
       nodes st !! j = Some sj → stopped sj = false →
       startedAt si + duration (buffer si) <= startedAt sj).

End LiveSession.

(* ===================================================================== *)
(** ** components/MeditationPlayer.tsx *)
(* ===================================================================== *)

Module MeditationPlayer.
Import Js WebAudio gemini.
Local Open Scope Q_scope.

(** One entry of [session.script.segments]. *)
Record Segment : Set := mkSegment {
  text : string;
  startSecond : Q;
  endSecond : Q
}.

(** What the player reads of its [session] prop: the bytes that
    [decodeBase64(session.audioUrl)] returns, and the script's
    segments. *)
Record MeditationSession : Set := mkSession {
  audio : list byte;
  segments : list Segment
}.

(** The four [useState] cells.  A function of the component is created
    anew at every render and reads the values of that render: a value of
    this type is also what such a closure has captured. *)
Record Hooks : Set := mkHooks {
  isPlaying : bool;
  currentTime : Q;
  duration : Q;
  currentSubtitle : string
}.

Definition setIsPlaying (v : bool) (h : Hooks) : Hooks :=
  mkHooks v (currentTime h) (duration h) (currentSubtitle h).
Definition setCurrentTime (v : Q) (h : Hooks) : Hooks :=
  mkHooks (isPlaying h) v (duration h) (currentSubtitle h).
Definition setDuration (v : Q) (h : Hooks) : Hooks :=
  mkHooks (isPlaying h) (currentTime h) v (currentSubtitle h).
Definition setCurrentSubtitle (v : string) (h : Hooks) : Hooks :=
  mkHooks (isPlaying h) (currentTime h) (duration h) v.

(** An [AudioBufferSourceNode] after [start(0, offset)], with the values
    its [onended] closure has captured. *)
Record SourceNode : Set := mkSourceNode {
  buffer : AudioBuffer;
  offset : Q;
  stopped : bool;
  ended : bool;
  onended : Hooks
}.

Definition stopNode (s : SourceNode) : SourceNode :=
  mkSourceNode (buffer s) (offset s) true (ended s) (onended s).
Definition endNode (s : SourceNode) : SourceNode :=
  mkSourceNode (buffer s) (offset s) (stopped s) true (onended s).

(** A node produces output from [start] until it is stopped or its
    buffer ends. *)
Definition active (s : SourceNode) : bool := negb (stopped s) && negb (ended s).

(** One mounted player.
    - [hooks]: the state cells, as the setters called so far leave them;
    - [rendered]: their values at the last committed render, which the
      functions handed out by that render read;
    - the five refs;
    - [nodes]: every source node started so far, named by position;
    - [frames]: the animation-frame callbacks requested and neither run
      nor cancelled, each [updateProgress] with its captured values;
    - [lastFrame]: the last handle [requestAnimationFrame] returned;
    - [closeRequests]: how many times the [onClose] prop was called. *)
Record Player : Type := mkPlayer {
  hooks : Hooks;
  rendered : Hooks;
  audioContextRef : option AudioContext;
  sourceNodeRef : option nat;
  startTimeRef : Q;
  pausedTimeRef : Q;
  animationFrameRef : nat;
  nodes : list SourceNode;
  frames : list (nat * Hooks);
  lastFrame : nat;
  closeRequests : nat
}.

Definition with_hooks (f : Hooks → Hooks) (p : Player) : Player :=
  mkPlayer (f (hooks p)) (rendered p) (audioContextRef p) (sourceNodeRef p)
           (startTimeRef p) (pausedTimeRef p) (animationFrameRef p)
           (nodes p) (frames p) (lastFrame p) (closeRequests p).
Definition set_rendered (v : Hooks) (p : Player) : Player :=
  mkPlayer (hooks p) v (audioContextRef p) (sourceNodeRef p)
           (startTimeRef p) (pausedTimeRef p) (animationFrameRef p)
           (nodes p) (frames p) (lastFrame p) (closeRequests p).
Definition set_audioContextRef (v : option AudioContext) (p : Player) : Player :=
  mkPlayer (hooks p) (rendered p) v (sourceNodeRef p)
           (startTimeRef p) (pausedTimeRef p) (animationFrameRef p)
           (nodes p) (frames p) (lastFrame p) (closeRequests p).
Definition set_sourceNodeRef (v : option nat) (p : Player) : Player :=
  mkPlayer (hooks p) (rendered p) (audioContextRef p) v
           (startTimeRef p) (pausedTimeRef p) (animationFrameRef p)
           (nodes p) (frames p) (lastFrame p) (closeRequests p).
Definition set_startTimeRef (v : Q) (p : Player) : Player :=
  mkPlayer (hooks p) (rendered p) (audioContextRef p) (sourceNodeRef p)
           v (pausedTimeRef p) (animationFrameRef p)
           (nodes p) (frames p) (lastFrame p) (closeRequests p).
Definition set_pausedTimeRef (v : Q) (p : Player) : Player :=
  mkPlayer (hooks p) (rendered p) (audioContextRef p) (sourceNodeRef p)
           (startTimeRef p) v (animationFrameRef p)
           (nodes p) (frames p) (lastFrame p) (closeRequests p).
Definition set_animationFrameRef (v : nat) (p : Player) : Player :=
  mkPlayer (hooks p) (rendered p) (audioContextRef p) (sourceNodeRef p)
           (startTimeRef p) (pausedTimeRef p) v
           (nodes p) (frames p) (lastFrame p) (closeRequests p).
Definition set_nodes (v : list SourceNode) (p : Player) : Player :=
  mkPlayer (hooks p) (rendered p) (audioContextRef p) (sourceNodeRef p)
           (startTimeRef p) (pausedTimeRef p) (animationFrameRef p)
           v (frames p) (lastFrame p) (closeRequests p).
Definition set_frames (v : list (nat * Hooks)) (p : Player) : Player :=
  mkPlayer (hooks p) (rendered p) (audioContextRef p) (sourceNodeRef p)
           (startTimeRef p) (pausedTimeRef p) (animationFrameRef p)
           (nodes p) v (lastFrame p) (closeRequests p).
Definition set_lastFrame (v : nat) (p : Player) : Player :=
  mkPlayer (hooks p) (rendered p) (audioContextRef p) (sourceNodeRef p)
           (startTimeRef p) (pausedTimeRef p) (animationFrameRef p)
           (nodes p) (frames p) v (closeRequests p).

Definition set_closeRequests (v : nat) (p : Player) : Player :=
  mkPlayer (hooks p) (rendered p) (audioContextRef p) (sourceNodeRef p)
           (startTimeRef p) (pausedTimeRef p) (animationFrameRef p)
           (nodes p) (frames p) (lastFrame p) v.

(** [requestAnimationFrame(updateProgress)], where [updateProgress] is
    the closure that has captured [cb].  Handles count up from 1. *)
Definition requestAnimationFrame (cb : Hooks) (p : Player) : nat * Player :=
  let id := S (lastFrame p) in
  (id, set_lastFrame id (set_frames (frames p ++ [(id, cb)]) p)).

(** [cancelAnimationFrame(id)]; an unknown handle is ignored. *)
Definition cancelAnimationFrame (id : nat) (p : Player) : Player :=
  set_frames (filter (fun f => f.1 ≠ id) (frames p)) p.

(** Lines 103 and 104: the caption shown at [elapsed]. *)
Definition inSegment (elapsed : Q) (s : Segment) : bool :=
  Qle_bool (startSecond s) elapsed && Qle_bool elapsed (endSecond s).

Definition subtitleAt (elapsed : Q) (segs : list Segment) : string :=
  match List.find (inSegment elapsed) segs with
  | Some segment => text segment
  | None => ""
  end.

(** [stopAudio] reads no state cell, so it is the same function at
    every render. *)
Definition stopAudio (p : Player) : Player :=
  let p1 :=
    match sourceNodeRef p with
    | Some i => set_sourceNodeRef None (set_nodes (alter stopNode i (nodes p)) p)
    | None => p
    end in
  with_hooks (setIsPlaying false) (cancelAnimationFrame (animationFrameRef p1) p1).

(** The functions of one render: [session] is the prop and [env] the
    values of the state cells at that render. *)
Section Render.
Variable session : MeditationSession.
Variable env : Hooks.

(** [startAudio(fromTime)].  The [await] on [decodeAudioData] resumes
    in a microtask, so no other handler runs in between; when decoding
    throws, the promise rejects and the rest does not run.  [start]
    rejects a negative offset; the offsets passed here are differences
    of clock readings and that case is not modelled. *)
Definition startAudio (fromTime now : Q) (p : Player) : Player :=
  match audioContextRef p with
  | None => p
  | Some ctx =>
      match decodeAudioData (audio session) ctx defaultSampleRate defaultNumChannels with
      | inl _ => p
      | inr audioBuffer =>
          let source := mkSourceNode audioBuffer fromTime false false env in
          let p := set_nodes (nodes p ++ [source]) p in
          let p := set_sourceNodeRef (Some (pred (length (nodes p)))) p in
          let p := set_startTimeRef (now - fromTime) p in
          let p := with_hooks (setIsPlaying true) p in
          (requestAnimationFrame env p).2
      end
  end.

(** [togglePlay].  With no context the non-null assertion fails at run
    time and the handler throws before it changes anything. *)
Definition togglePlay (now : Q) (p : Player) : Player :=
  if isPlaying env then
    match audioContextRef p with
    | None => p
    | Some _ => stopAudio (set_pausedTimeRef (now - startTimeRef p) p)
    end
  else startAudio (pausedTimeRef p) now p.

(** [updateProgress]. *)
Definition updateProgress (now : Q) (p : Player) : Player :=
  match audioContextRef p with
  | None => p
  | Some _ =>
      if negb (isPlaying env) then p
      else
        let elapsed := now - startTimeRef p in
        let p := with_hooks (setCurrentTime elapsed) p in
        let p := with_hooks (setCurrentSubtitle (subtitleAt elapsed (segments session))) p in
        if Qle_bool (duration env) elapsed
        then with_hooks (setCurrentTime (duration env)) (stopAudio p)
        else
          let r := requestAnimationFrame env p in
          set_animationFrameRef r.1 r.2
  end.

(** [source.onended]. *)
Definition onended_handler (p : Player) : Player :=
  if isPlaying env then with_hooks (setIsPlaying false) p else p.

End Render.

(** The values of the [externalCommand] prop. *)
Inductive Command : Set := play | pause | stop.

(** [onClose()]: the call is counted.  App answers it by unmounting
    the player, which runs the cleanup of the audio effect,
    [stopAudio]. *)
Definition onClose (p : Player) : Player :=
  stopAudio (set_closeRequests (S (closeRequests p)) p).

(** The effect on [externalCommand], run by the render whose cells are
    [env]. *)
Definition externalCommandEffect (session : MeditationSession) (env : Hooks)
    (externalCommand : option Command) (now : Q) (p : Player) : Player :=
  let p :=
    match externalCommand with
    | Some play => if negb (isPlaying env) then togglePlay session env now p else p
    | _ => p
    end in
  let p :=
    match externalCommand with
    | Some pause => if isPlaying env then togglePlay session env now p else p
    | _ => p
    end in
  match externalCommand with
  | Some stop => onClose p
  | _ => p
  end.

(** [initAudio], the body of the audio effect: the context is stored in
    the ref before the first [await]; the duration is set when decoding
    succeeds. *)
Definition initAudio (session : MeditationSession) (p : Player) : Player :=
  let audioCtx := mkAudioContext 24000 in
  let p := set_audioContextRef (Some audioCtx) p in
  match decodeAudioData (audio session) audioCtx defaultSampleRate defaultNumChannels with
  | inl _ => p
  | inr audioBuffer => with_hooks (setDuration (WebAudio.duration audioBuffer)) p
  end.

(** The state cells and refs at the first render. *)
Definition initialHooks : Hooks := mkHooks false 0 0 "".
Definition created : Player :=
  mkPlayer initialHooks initialHooks None None 0 0 0%nat [] [] 0%nat 0%nat.

(** React commits a render: the functions handed out from now on read
    the current cells. *)
Definition commit (p : Player) : Player := set_rendered (hooks p) p.

(** Mounting: the effects run in the order they are declared, first the
    one on [externalCommand], then the audio effect; then the player
    renders again with the new duration. *)
Definition mount (session : MeditationSession)
    (externalCommand : option Command) (now : Q) : Player :=
  commit (initAudio session
            (externalCommandEffect session initialHooks externalCommand now created)).

(** Running the animation-frame callbacks of one frame: the handles
    pending when the frame begins are visited in order, and a callback
    runs unless it was cancelled meanwhile. *)
Fixpoint runFrames (session : MeditationSession) (ids : list nat) (now : Q)
    (p : Player) : Player :=
  match ids with
  | [] => p
  | id :: rest =>
      match List.find (fun f => bool_decide (f.1 = id)) (frames p) with
      | Some f =>
          runFrames session rest now
            (updateProgress session f.2 now (cancelAnimationFrame id p))
      | None => runFrames session rest now p
      end
  end.

(** What can happen to a mounted player. *)
Inductive Event : Set :=
| TogglePlay                               (* the button, or [PlayerHandle.togglePlay] *)
| Stop                                     (* [PlayerHandle.stop] *)
| ExternalCommand (c : option Command)     (* the prop changes and the render commits *)
| AnimationFrame
| Ended (i : nat)                          (* node [i] fires [ended] *)
| Commit.                                  (* React commits a pending render *)

(** One event at clock reading [now].  The button and the handle call
    the functions of the last committed render. *)
Definition handle (session : MeditationSession) (now : Q) (ev : Event)
    (p : Player) : Player :=
  match ev with
  | TogglePlay => togglePlay session (rendered p) now p
  | Stop => stopAudio p
  | ExternalCommand c =>
      let p := commit p in
      externalCommandEffect session (rendered p) c now p
  | AnimationFrame => runFrames session (map fst (frames p)) now p
  | Ended i =>
      match nodes p !! i with
      | Some s => onended_handler (onended s) (set_nodes (alter endNode i (nodes p)) p)
      | None => p
      end
  | Commit => commit p
  end.

(** A trace: events with the clock reading of each. *)
Definition run (session : MeditationSession) (evs : list (Q * Event))
    (p : Player) : Player :=
  foldl (fun p e => handle session e.1 e.2 p) p evs.

(** A trace in which React commits the render each event asks for
    before the next event is handled. *)
Definition runRendered (session : MeditationSession) (evs : list (Q * Event))
    (p : Player) : Player :=
  foldl (fun p e => commit (handle session e.1 e.2 p)) p evs.

(** The nodes producing output, by position. *)
Definition isActive (p : Player) (i : nat) : bool :=
  match nodes p !! i with
  | Some s => active s
  | None => false
  end.

Definition activeHandles (p : Player) : list nat :=
  filter (fun i => isActive p i = true) (seq 0 (length (nodes p))).

(** [elapsed] lies within the segment, ends included. *)
Definition covers (elapsed : Q) (s : Segment) : Prop :=
  startSecond s <= elapsed ∧ elapsed <= endSecond s.

(** Every node that produces output is the one the ref names, and the
    playing cell is then set; no [onended] closure has captured a set
    playing cell. *)
Definition tidy (p : Player) : Prop :=
  (∀ i, isActive p i = true → sourceNodeRef p = Some i ∧ isPlaying (hooks p) = true)
  ∧ (∀ s, s ∈ nodes p → isPlaying (onended s) = false).

(** The functions handed out read the current playing cell. *)
Definition settled (p : Player) : Prop :=
  isPlaying (rendered p) = isPlaying (hooks p).

(** No pending frame callback and no [onended] closure has captured a
    set playing cell, and the displayed time and caption are still the
    initial ones. *)
Definition quiet (p : Player) : Prop :=
  (∀ f, f ∈ frames p → isPlaying f.2 = false)
  ∧ (∀ s, s ∈ nodes p → isPlaying (onended s) = false)
  ∧ currentTime (hooks p) = 0
  ∧ currentSubtitle (hooks p) = "".

(** Nothing was ever started: no node, no frame request, the playing
    cell cleared and the duration still 0. *)
Definition silent (p : Player) : Prop :=
  nodes p = [] ∧ frames p = [] ∧ isPlaying (hooks p) = false
  ∧ duration (hooks p) = 0.

(** Node [i] exists, is not the one the ref names, and its stopped flag
    is [v]. *)
Definition unnamed (i : nat) (v : bool) (p : Player) : Prop :=
  sourceNodeRef p ≠ Some i ∧ stopped <$> nodes p !! i = Some v.

(** The session of the examples: two samples of audio, three segments. *)
Definition demo : MeditationSession :=
  mkSession ["001"; "000"; "255"; "127"]%byte
            [mkSegment "intro" 0 10; mkSegment "breathe" 10 170;
             mkSegment "close" 170 180].

End MeditationPlayer.

(* ===================================================================== *)
(** ** App.tsx: the intent returned for a voice command *)
(* ===================================================================== *)

Module App.

(** [types.ts]. *)
Inductive MeditationTheme : Set := FOREST | OCEAN | SPACE | MOUNTAIN | ZEN.
Inductive VoiceName : Set := KORE | PUCK | CHARON | FENRIR | ZEPHYR.

(** The own properties of the two object literals. *)
Definition ThemeMap : gmap string MeditationTheme :=
  list_to_map [("Forest", FOREST); ("Ocean", OCEAN); ("Space", SPACE);
               ("Mountain", MOUNTAIN); ("Zen", ZEN)].

Definition VoiceMap : gmap string VoiceName :=
  list_to_map [("Kore", KORE); ("Puck", PUCK); ("Charon", CHARON);
               ("Fenrir", FENRIR); ("Zephyr", ZEPHYR)].

(** An object literal inherits from [Object.prototype]; these are the
    property names found there.  Each holds a function, or for
    [__proto__] the prototype object itself. *)
Definition ObjectPrototype : list string :=
  ["constructor"; "hasOwnProperty"; "isPrototypeOf"; "propertyIsEnumerable";
   "toLocaleString"; "toString"; "valueOf"; "__proto__";
   "__defineGetter__"; "__defineSetter__"; "__lookupGetter__";
   "__lookupSetter__"].

(** The result of a property read [obj[key]]. *)
Inductive property (A : Type) : Type :=
| Own (a : A)                 (* the value stored in the literal *)
| Inherited (name : string)   (* a member of [Object.prototype] *)
| Undefined.
Arguments Own {A} a.
Arguments Inherited {A} name.
Arguments Undefined {A}.

Definition get {A} (obj : gmap string A) (key : string) : property A :=
  match obj !! key with
  | Some a => Own a
  | None => if bool_decide (key ∈ ObjectPrototype) then Inherited key else Undefined
  end.

(** The members of [Object.prototype] that are functions: all but
    [__proto__]. *)
Definition isFunction {A} (v : property A) : bool :=
  match v with
  | Inherited name => negb (bool_decide (name = "__proto__"))
  | _ => false
  end.

(** Truthiness.  The enum members are non-empty strings, and functions
    and objects are truthy. *)
Definition truthy {A} (v : property A) : bool :=
  match v with
  | Undefined => false
  | _ => true
  end.

(** A field of the parsed intent: absent, or a string. *)
Definition field_truthy (f : option string) : bool :=
  match f with
  | Some s => negb (bool_decide (s = ""))
  | None => false
  end.

(** A property key is converted to a string; [undefined] becomes
    ["undefined"]. *)
Definition key_of (f : option string) : string := default "undefined" f.

Record Intent : Set := mkIntent {
  theme_field : option string;
  voice_field : option string;
  action_field : option string
}.

Inductive GenerateType : Set := image | video.

(** What a state cell holds.  The cells are typed by the enums in the
    source; at run time a cell holds what the setter was given, unless
    that is a function: a React setter calls a function as an updater,
    with the previous value of the cell, and the cell then holds what
    the call returns (or the render throws).  [Updated name previous]
    stands for that outcome, for the member [name] of
    [Object.prototype]. *)
Inductive cell (A : Type) : Type :=
| Held (v : property A)
| Updated (name : string) (previous : cell A).
Arguments Held {A} v.
Arguments Updated {A} name previous.

Coercion Held : property >-> cell.

(** A React setter called with [v] on a cell that holds [previous]. *)
Definition store {A} (v : property A) (previous : cell A) : cell A :=
  match v with
  | Inherited name => if isFunction v then Updated name previous else Held v
  | _ => Held v
  end.

(** The state cells the handler writes, and the calls of
    [handleGenerate] it makes, with their arguments. *)
Record State : Type := mkState {
  theme : cell MeditationTheme;
  voice : cell VoiceName;
  externalPlaybackCommand : option MeditationPlayer.Command;
  generateCalls : list (GenerateType * property MeditationTheme * property VoiceName)
}.

Definition initial : State := mkState (Own ZEN) (Own ZEPHYR) None [].

Definition setTheme (v : property MeditationTheme) (st : State) : State :=
  mkState (store v (theme st)) (voice st) (externalPlaybackCommand st)
          (generateCalls st).
Definition setVoice (v : property VoiceName) (st : State) : State :=
  mkState (theme st) (store v (voice st)) (externalPlaybackCommand st)
          (generateCalls st).
Definition setExternalPlaybackCommand (v : option MeditationPlayer.Command)
    (st : State) : State :=
  mkState (theme st) (voice st) v (generateCalls st).
Definition handleGenerate (type : GenerateType)
    (customTheme : property MeditationTheme) (customVoice : property VoiceName)
    (st : State) : State :=
  mkState (theme st) (voice st) (externalPlaybackCommand st)
          (generateCalls st ++ [(type, customTheme, customVoice)]).

(** [['play', 'pause', 'stop'].includes(intent.action)], with the
    command the string stands for. *)
Definition playbackCommand (action : option string) : option MeditationPlayer.Command :=
  match action with
  | Some a =>
      if bool_decide (a = "play") then Some MeditationPlayer.play
      else if bool_decide (a = "pause") then Some MeditationPlayer.pause
      else if bool_decide (a = "stop") then Some MeditationPlayer.stop
      else None
  | None => None
  end.

(** Lines 110 to 118 of the [onstop] handler. *)
Definition applyIntent (intent : Intent) (st : State) : State :=
  let themeValue := get ThemeMap (key_of (theme_field intent)) in
  let voiceValue := get VoiceMap (key_of (voice_field intent)) in
  let st :=
    if field_truthy (theme_field intent) && truthy themeValue
    then setTheme themeValue st else st in
  let st :=
    if field_truthy (voice_field intent) && truthy voiceValue
    then setVoice voiceValue st else st in
  if bool_decide (action_field intent = Some "generate_image")
  then handleGenerate image themeValue voiceValue st
  else if bool_decide (action_field intent = Some "generate_video")
  then handleGenerate video themeValue voiceValue st
  else
    match playbackCommand (action_field intent) with
    | Some c => setExternalPlaybackCommand (Some c) st
    | None => st
    end.

(** The timer set with the command: [setExternalPlaybackCommand(null)]. *)
Definition clearCommand (st : State) : State :=
  setExternalPlaybackCommand None st.

End App.

(* ===================================================================== *)
(** ** services/gemini.ts: the base64 wrapping, and the frames sent *)
(* ===================================================================== *)

Module Codec.
Import Js WebAudio gemini.
Import Stdlib.Strings.Ascii.

(** JavaScript strings are sequences of code units.  The strings handled
    here are those whose code units are below 256, which [string] holds:
    a binary string is one by definition, and [atob] rejects a string
    with any other code unit. *)

(** The base64 alphabet, by value. *)
Definition alphabet : list ascii :=
  String.list_ascii_of_string
    "ABCDEFGHIJKLMNOPQRSTUVWXYZabcdefghijklmnopqrstuvwxyz0123456789+/".

Definition char_of_sextet (n : nat) : ascii := nth n alphabet "="%char.

Fixpoint index_of (c : ascii) (l : list ascii) : option nat :=
  match l with
  | [] => None
  | x :: l' => if Ascii.eqb c x then Some 0%nat else S <$> index_of c l'
  end.

Definition sextet_of_char (c : ascii) : option nat := index_of c alphabet.

(** The 6-bit groups of a byte sequence, three bytes (24 bits) at a
    time; the bits of a last group of one or two bytes are completed with
    zeros. *)
Fixpoint sextets (bytes : list nat) : list nat :=
  match bytes with
  | [] => []
  | [a] => [a / 4; (a mod 4) * 16]%nat
  | [a; b] => [a / 4; (a mod 4) * 16 + b / 16; (b mod 16) * 4]%nat
  | a :: b :: c :: rest =>
      (a / 4 :: (a mod 4) * 16 + b / 16 :: (b mod 16) * 4 + c / 64 :: c mod 64
         :: sextets rest)%nat
  end.

(** The padding that completes the last group to four characters. *)
Definition padding (n : nat) : list ascii :=
  match (n mod 3)%nat with
  | 1%nat => ["="; "="]%char
  | 2%nat => ["="]%char
  | _ => []
  end.

(** [btoa(binary)].  It throws on a code unit above 255, which a
    [string] cannot hold. *)
Definition btoa (binary : string) : string :=
  let codes := map nat_of_ascii (String.list_ascii_of_string binary) in
  String.string_of_list_ascii (map char_of_sextet (sextets codes) ++ padding (length codes)).

(** ASCII whitespace: tab, line feed, form feed, carriage return, space. *)
Definition is_whitespace (c : ascii) : bool :=
  bool_decide (nat_of_ascii c ∈ [9; 10; 12; 13; 32]%nat).

(** When the length is a multiple of four, one or two [=] at the end are
    removed. *)
Definition strip_padding (l : list ascii) : list ascii :=
  if (length l mod 4 =? 0)%nat then
    match rev l with
    | "="%char :: "="%char :: r => rev r
    | "="%char :: r => rev r
    | _ => l
    end
  else l.

(** The bytes of a sequence of 6-bit groups: every 24 bits give three
    bytes; of 12 bits left over the last four are dropped, of 18 the last
    two. *)
Fixpoint octets (groups : list nat) : list nat :=
  match groups with
  | s0 :: s1 :: s2 :: s3 :: rest =>
      (s0 * 4 + s1 / 16 :: (s1 mod 16) * 16 + s2 / 4 :: (s2 mod 4) * 64 + s3
         :: octets rest)%nat
  | [s0; s1; s2] => [s0 * 4 + s1 / 16; (s1 mod 16) * 16 + s2 / 4]%nat
  | [s0; s1] => [s0 * 4 + s1 / 16]%nat
  | _ => []
  end.

(** [atob(data)], the forgiving base64 decoding: whitespace is removed,
    then the padding; a length of 1 modulo 4 or a character outside the
    alphabet is a failure ([None]: the call throws). *)
Definition atob (data : string) : option string :=
  let chars :=
    strip_padding (filter (fun c => is_whitespace c = false)
                          (String.list_ascii_of_string data)) in
  if (length chars mod 4 =? 1)%nat then None
  else
    groups ← mapM sextet_of_char chars;
    Some (String.string_of_list_ascii (map ascii_of_nat (octets groups))).

(** [decodeBase64]: each code unit of the binary string is stored in a
    [Uint8Array]. *)
Definition decodeBase64 (base64 : string) : option (list byte) :=
  String.list_byte_of_string <$> atob base64.

(** [encodeBase64]: the bytes become the code units of a binary
    string. *)
Definition encodeBase64 (bytes : list byte) : string :=
  btoa (String.string_of_list_byte bytes).

(** A byte by value. *)
Definition byte_of_Z (z : Z) : byte :=
  default "000"%byte (Byte.of_N (Z.to_N z)).

(** [new Uint8Array(int16.buffer)]: the two bytes of each element, low
    byte first. *)
Definition Uint8Array (int16 : list Z) : list byte :=
  flat_map (fun z => let u := z mod 65536 in [byte_of_Z (u mod 256); byte_of_Z (u / 256)])
           int16.

(** The [data] of the media sent for one captured frame
    (LiveSession.tsx, line 29). *)
Definition realtimeInput (inputData : list Q) : string :=
  encodeBase64 (Uint8Array (LiveSession.onaudioprocess inputData)).

(** *** Images as data URLs *)

(** [s.split(sep)] for a separator of one character: the pieces between
    the occurrences of [sep], in order.  There is always a first piece. *)
Fixpoint split (sep : ascii) (s : list ascii) : list (list ascii) :=
  match s with
  | [] => [[]]
  | c :: s' =>
      if Ascii.eqb c sep then [] :: split sep s'
      else match split sep s' with
           | piece :: pieces => (c :: piece) :: pieces
           | [] => [[c]]
           end
  end.

(** [s.includes(sep)]. *)
Definition includes (sep : ascii) (s : list ascii) : bool :=
  existsb (Ascii.eqb sep) s.

(** What [generateVisual] (line 71) and [editVisual] (line 87) return
    for the payload of the image part of the response. *)
Definition dataUrl (data : string) : string :=
  String.append "data:image/png;base64," data.

(** The [data] that [editVisual] (line 75) sends for the image it is
    given, and the [imageBytes] [generateVideo] (line 93) computes for an
    image that is not empty: element 1 of the pieces when there is a
    comma, the whole string otherwise.  [None] stands for
    [undefined]. *)
Definition imagePayload (base64Data : string) : option string :=
  let chars := String.list_ascii_of_string base64Data in
  if includes "," chars
  then String.string_of_list_ascii <$> (split "," chars !! 1%nat)
  else Some base64Data.

(** The image of the request of [generateVideo] (line 93): there is
    none when [imageBase64] is absent or the empty string. *)
Definition imagePart (imageBase64 : option string) : option (option string) :=
  match imageBase64 with
  | Some s => if String.eqb s "" then None else Some (imagePayload s)
  | None => None
  end.

End Codec.

(* ===================================================================== *)
(** ** components/ChatBot.tsx *)
(* ===================================================================== *)

Module ChatBot.

(** A JavaScript string, as its UTF-16 code units. *)
Definition jsstring : Set := list N.

Definition units (s : string) : jsstring :=
  map (fun c => N.of_nat (Ascii.nat_of_ascii c)) (String.list_ascii_of_string s).

(** The code units [trim] removes: WhiteSpace and LineTerminator of
    ECMAScript, all of them in the basic plane. *)
Definition isWhiteSpace (u : N) : bool :=
  bool_decide (u ∈ [9; 10; 11; 12; 13; 32; 160; 5760; 8232; 8233; 8239;
                    8287; 12288; 65279]%N)
  || ((8192 <=? u)%N && (u <=? 8202)%N).

Fixpoint trimStart (s : jsstring) : jsstring :=
  match s with
  | u :: s' => if isWhiteSpace u then trimStart s' else s
  | [] => []
  end.

Definition trim (s : jsstring) : jsstring := rev (trimStart (rev (trimStart s))).

(** A string is falsy when it is empty. *)
Definition falsy (s : jsstring) : bool :=
  match s with [] => true | _ => false end.

Inductive Role : Set := user | model.

#[global] Instance Role_eq_dec : EqDecision Role.
Proof. solve_decision. Defined.

Record Url : Set := mkUrl { title : jsstring; uri : jsstring }.

Record ChatMessage : Set := mkChatMessage {
  role : Role;
  content : jsstring;
  groundingUrls : option (list Url)
}.

(** The state cells the sending handlers read or write. *)
Record Hooks : Set := mkHooks {
  messages : list ChatMessage;
  input : jsstring;
  isLoading : bool;
  useThinking : bool;
  useGrounding : bool
}.

Definition setInput (v : jsstring) (h : Hooks) : Hooks :=
  mkHooks (messages h) v (isLoading h) (useThinking h) (useGrounding h).
Definition setIsLoading (v : bool) (h : Hooks) : Hooks :=
  mkHooks (messages h) (input h) v (useThinking h) (useGrounding h).
Definition setUseThinking (v : bool) (h : Hooks) : Hooks :=
  mkHooks (messages h) (input h) (isLoading h) v (useGrounding h).
Definition setUseGrounding (v : bool) (h : Hooks) : Hooks :=
  mkHooks (messages h) (input h) (isLoading h) (useThinking h) v.

(** [setMessages(prev => [...prev, m])]: the update is applied to the
    cell as it is when the update runs. *)
Definition addMessage (m : ChatMessage) (h : Hooks) : Hooks :=
  mkHooks (messages h ++ [m]) (input h) (isLoading h) (useThinking h)
          (useGrounding h).

(** The arguments of a call of [getSmartChat] that has not settled. *)
Record Call : Set := mkCall {
  message : jsstring;
  thinking : bool;
  grounding : bool
}.

(** How such a call settles: with the text and the links of the answer,
    or with an exception. *)
Inductive Outcome : Set :=
| resolved (text : jsstring) (urls : list Url)
| rejected.

(** The component between two events: the cells, and the calls of
    [getSmartChat] whose [handleSend] is suspended at its [await]. *)
Record Chat : Set := mkChat {
  hooks : Hooks;
  inFlight : list Call
}.

Definition greeting : ChatMessage :=
  mkChatMessage model
    (units "Namaste. I am ZenCoach. How can I assist your mindfulness journey?")
    None.

Definition initial : Chat :=
  mkChat (mkHooks [greeting] [] false false false) [].

(** [handleSend(text)] up to its [await] (lines 262 to 271).  [rendered]
    holds the cells as the render that created this closure saw them:
    [input], [isLoading] and the two switches are read from there;
    [text] is [None] when the argument is absent. *)
Definition handleSend (rendered : Hooks) (text : option jsstring) (c : Chat) : Chat :=
  let messageToSend :=
    match text with
    | Some t => if falsy t then input rendered else t
    | None => input rendered
    end in
  if falsy (trim messageToSend) || isLoading rendered then c
  else
    mkChat (setIsLoading true
              (addMessage (mkChatMessage user messageToSend None)
                 (setInput [] (hooks c))))
           (inFlight c ++ [mkCall messageToSend (useThinking rendered)
                                  (useGrounding rendered)]).

(** The message added when the call settles (lines 272 and 274). *)
Definition reply (o : Outcome) : ChatMessage :=
  match o with
  | resolved text urls => mkChatMessage model text (Some urls)
  | rejected =>
      mkChatMessage model (units "Connection to the universe lost. Try again.") None
  end.

(** The rest of [handleSend], run when call [i] settles (lines 272 to
    277). *)
Definition settle (i : nat) (o : Outcome) (c : Chat) : Chat :=
  match inFlight c !! i with
  | Some _ =>
      mkChat (setIsLoading false (addMessage (reply o) (hooks c)))
             (delete i (inFlight c))
  | None => c
  end.

(** [recorder.onstop] up to its [await] (lines 287 and 288). *)
Definition onstop (c : Chat) : Chat :=
  mkChat (setIsLoading true (hooks c)) (inFlight c).

(** The rest of [onstop], run when [transcribeAudio] settles (lines 290
    to 294); [text] is [None] when it rejected.  [handleSend] is the
    closure of the render in which [startRecording] ran; it is called and
    not awaited, so the [finally] block runs as soon as that call
    reaches its own [await]. *)
Definition transcribed (rendered : Hooks) (text : option jsstring) (c : Chat) : Chat :=
  let c' :=
    match text with
    | Some t => handleSend rendered (Some t) c
    | None => c
    end in
  mkChat (setIsLoading false (hooks c')) (inFlight c').

(** What can happen to the component.  A handler carries the cells of
    the render that created it. *)
Inductive Event : Set :=
| Typed (value : jsstring)
| ToggleThinking (rendered : Hooks)
| ToggleGrounding (rendered : Hooks)
| Submit (rendered : Hooks)
| Settled (i : nat) (o : Outcome)
| Stopped
| Transcribed (rendered : Hooks) (text : option jsstring).

Definition handle (e : Event) (c : Chat) : Chat :=
  match e with
  | Typed value => mkChat (setInput value (hooks c)) (inFlight c)
  | ToggleThinking rendered =>
      mkChat (setUseThinking (negb (useThinking rendered)) (hooks c)) (inFlight c)
  | ToggleGrounding rendered =>
      mkChat (setUseGrounding (negb (useGrounding rendered)) (hooks c)) (inFlight c)
  | Submit rendered => handleSend rendered None c
  | Settled i o => settle i o c
  | Stopped => onstop c
  | Transcribed rendered text => transcribed rendered text c
  end.

Fixpoint run (evs : list Event) (c : Chat) : Chat :=
  match evs with
  | [] => c
  | e :: evs' => run evs' (handle e c)
  end.

(** The messages of one role. *)
Definition by_role (r : Role) (ms : list ChatMessage) : list ChatMessage :=
  filter (fun m => role m = r) ms.

(** Questions and answers are in balance: every user message is either
    answered or still waiting for its call to settle. *)
Definition balanced (c : Chat) : Prop :=
  (length (by_role user (messages (hooks c))) + 1
   = length (by_role model (messages (hooks c))) + length (inFlight c))%nat.

End ChatBot.

(* ===================================================================== *)
(** ** components/LiveSession.tsx: the message as it arrives *)
(* ===================================================================== *)

Module LiveWire.
Import Js WebAudio gemini.

(** The part of a server message the handler reads.  A field that is
    absent ([undefined]) is [None]. *)
Record Blob : Set := mkBlob { data : option string }.
Record Part : Set := mkPart { inlineData : option Blob }.
Record Content : Set := mkContent { parts : option (list Part) }.
Record ServerContent : Set := mkServerContent {
  modelTurn : option Content;
  interrupted : option bool
}.
Record LiveServerMessage : Set := mkLiveServerMessage {
  serverContent : option ServerContent
}.

(** Line 36, [msg.serverContent?.modelTurn?.parts[0]?.inlineData?.data].
    An absent [serverContent] or [modelTurn] ends the chain with
    [undefined]; [parts] is indexed without [?.], so a [modelTurn]
    without [parts] throws a TypeError; an empty [parts], a part without
    [inlineData] and an [inlineData] without [data] give [undefined]. *)
Definition base64 (msg : LiveServerMessage) : result (option string) :=
  match serverContent msg with
  | None => ret None
  | Some content =>
      match modelTurn content with
      | None => ret None
      | Some turn =>
          match parts turn with
          | None => throw TypeError
          | Some ps =>
              ret (match ps with
                   | part :: _ =>
                       match inlineData part with
                       | Some blob => data blob
                       | None => None
                       end
                   | [] => None
                   end)
          end
      end
  end.

(** Line 47, [msg.serverContent?.interrupted], as the test reads it. *)
Definition interruptedFlag (msg : LiveServerMessage) : bool :=
  match serverContent msg with
  | Some content => default false (interrupted content)
  | None => false
  end.

(** The empty string is falsy. *)
Definition truthy (s : option string) : option string :=
  match s with
  | Some text => if String.eqb text "" then None else Some text
  | None => None
  end.

(** [onmessage] on the message as it arrives.  Line 36 is evaluated
    first; [decodeBase64] is called only inside the test of line 37, and
    [atob] throws InvalidCharacterError on a string that is not base64.
    From there on the handler is [LiveSession.onmessage] on the bytes. *)
Definition onmessage (now : Q) (msg : LiveServerMessage) (st : LiveSession.State)
    : result LiveSession.State :=
  let! inline := base64 msg in
  match truthy inline, LiveSession.audioContextRef st with
  | Some text, Some _ =>
      match Codec.decodeBase64 text with
      | Some bytes =>
          LiveSession.onmessage now
            (LiveSession.mkMessage (Some bytes) (interruptedFlag msg)) st
      | None => throw InvalidCharacterError
      end
  | _, _ =>
      LiveSession.onmessage now
        (LiveSession.mkMessage None (interruptedFlag msg)) st
  end.


Definition signal (interrupt : bool) : LiveServerMessage :=
  mkLiveServerMessage (Some (mkServerContent None (Some interrupt))).

End LiveWire.

(* ===================================================================== *)
(** * Properties *)
(* ===================================================================== *)

(** ** Conversions *)

Module JsFacts.
Import Js.

Lemma wrap16_range z : -32768 <= wrap16 z <= 32767.
Proof.
  unfold wrap16. pose proof (Z.mod_pos_bound z 65536 eq_refl).
  destruct (Z.leb_spec 32768 (z mod 65536)); lia.
Qed.

Lemma wrap16_small z : -32768 <= z <= 32767 → wrap16 z = z.
Proof.
  intros Hz. unfold wrap16.
  destruct (Z_lt_le_dec z 0) as [Hneg|Hpos].
  - assert (Hm : z mod 65536 = z + 65536).
    { symmetry. apply (Z.mod_unique_pos z 65536 (-1)); lia. }
    rewrite Hm. destruct (Z.leb_spec 32768 (z + 65536)); lia.
  - rewrite Z.mod_small by lia.
    destruct (Z.leb_spec 32768 z); lia.
Qed.


Lemma Math_max_ge_l a b : (a <= Math_max a b)%Q.
Proof.
  unfold Math_max. destruct (Qle_bool b a) eqn:E.
  - apply Qle_refl.
  - destruct (Qlt_le_dec a b) as [H|H]; [by apply Qlt_le_weak|].
    apply Qle_bool_iff in H. congruence.
Qed.

Lemma Math_max_l a b : (b <= a)%Q → Math_max a b = a.
Proof. intros H. unfold Math_max. apply Qle_bool_iff in H. by rewrite H. Qed.

Lemma Math_max_r a b : (a < b)%Q → Math_max a b = b.
Proof.
  intros H. unfold Math_max. destruct (Qle_bool b a) eqn:E; [|done].
  apply Qle_bool_iff in E. exfalso. eapply Qlt_not_le; eauto.
Qed.

(** The quotient of two naturals, as the rational the code computes. *)
Lemma Qfloor_div (n c : nat) :
  (0 < c)%nat →
  Qfloor (inject_Z (Z.of_nat n) / inject_Z (Z.of_nat c)) = Z.of_nat (n / c).
Proof.
  intros Hc. rewrite Nat2Z.inj_div.
  destruct c as [|c]; [lia|].
  unfold Qdiv, Qinv, Qmult, inject_Z, Qfloor. simpl.
  rewrite Z.mul_1_r. done.
Qed.

Lemma iterations_div_ge (n c : nat) :
  (0 < c)%nat →
  (n / c ≤ iterations (inject_Z (Z.of_nat n) / inject_Z (Z.of_nat c)))%nat.
Proof.
  intros Hc. unfold iterations.
  pose proof (Qfloor_div n c Hc) as Hf.
  pose proof (Qfloor_le (inject_Z (Z.of_nat n) / inject_Z (Z.of_nat c))) as H1.
  pose proof (Qle_ceiling (inject_Z (Z.of_nat n) / inject_Z (Z.of_nat c))) as H2.
  pose proof (Qle_trans _ _ _ H1 H2) as H3.
  rewrite <- Zle_Qle in H3. lia.
Qed.

End JsFacts.

(** ** decodeAudioData *)

Module geminiFacts.
Import Js WebAudio gemini JsFacts.

(** Induction two bytes at a time, the way [Int16Array] reads. *)
Lemma byte_pairs_ind (P : list byte → Prop) :
  P [] → (∀ b, P [b]) → (∀ lo hi rest, P rest → P (lo :: hi :: rest)) →
  ∀ l, P l.
Proof.
  intros H0 H1 H2 l.
  assert (H : P l ∧ ∀ b, P (b :: l)); [|by destruct H].
  induction l as [|a l [IH1 IH2]]; split; auto.
Qed.

Lemma Int16Array_odd data :
  Nat.even (length data) = false → Int16Array data = throw RangeError.
Proof.
  induction data as [|b|lo hi rest IH] using byte_pairs_ind; intros H.
  - done.
  - done.
  - simpl in *. by rewrite IH.
Qed.

Lemma Int16Array_even data :
  Nat.even (length data) = true →
  ∃ elems, Int16Array data = ret elems ∧ length data = (2 * length elems)%nat.
Proof.
  induction data as [|b|lo hi rest IH] using byte_pairs_ind; intros H.
  - by exists [].
  - done.
  - destruct (IH H) as (elems & E & L).
    exists (int16_of_bytes lo hi :: elems). simpl. rewrite E. simpl.
    split; [done|lia].
Qed.

(** Element [k] of the view is made of bytes [2k] and [2k+1]. *)
Lemma Int16Array_lookup data elems k z :
  Int16Array data = ret elems → elems !! k = Some z →
  ∃ lo hi, data !! (2 * k)%nat = Some lo ∧ data !! (2 * k + 1)%nat = Some hi
           ∧ z = int16_of_bytes lo hi.
Proof.
  revert elems k.
  induction data as [|b|lo hi rest IH] using byte_pairs_ind; intros elems k E Hk.
  - injection E as <-. done.
  - done.
  - simpl in E. destruct (Int16Array rest) as [e|elems'] eqn:E'; [done|].
    injection E as <-. destruct k as [|k].
    + injection Hk as <-. by exists lo, hi.
    + destruct (IH elems' k eq_refl Hk) as (lo' & hi' & A & B & C).
      exists lo', hi'. replace (2 * S k)%nat with (S (S (2 * k))) by lia.
      done.
Qed.

Lemma int16_of_bytes_range lo hi : -32768 <= int16_of_bytes lo hi <= 32767.
Proof. apply wrap16_range. Qed.

Lemma scaled_unit z :
  -32768 <= z <= 32767 → (-1 <= inject_Z z / 32768 <= 1)%Q.
Proof.
  intros [Hl Hu]. unfold Qdiv, Qmult, Qinv, Qle, inject_Z. simpl. lia.
Qed.

(** The loop [for (i = 0; i < k; i++) cd[i] = f(i)] on an array. *)
Lemma store_loop_length {A} (f : nat → A) (cd : list A) k :
  length (foldl (fun cd i => <[i := f i]> cd) cd (seq 0 k)) = length cd.
Proof.
  induction k as [|k IH]; [done|].
  rewrite seq_S, foldl_app. simpl. by rewrite length_insert.
Qed.

Lemma store_loop_lookup {A} (f : nat → A) (cd : list A) k j :
  (j < length cd)%nat → (j < k)%nat →
  foldl (fun cd i => <[i := f i]> cd) cd (seq 0 k) !! j = Some (f j).
Proof.
  intros Hj. induction k as [|k IH]; [lia|]. intros Hk.
  rewrite seq_S, foldl_app. simpl.
  destruct (decide (j = k)) as [->|Hne].
  - apply list_lookup_insert_eq. by rewrite store_loop_length.
  - rewrite list_lookup_insert_ne by done. apply IH. lia.
Qed.

(** The loop over the channels leaves the shape of the buffer alone and
    rewrites channel [j] with the function for [j]. *)
Lemma channel_loop_shape (g : nat → list sample → list sample) buf k :
  let buf' := foldl (fun b c => updateChannel c (g c) b) buf (seq 0 k) in
  numberOfChannels buf' = numberOfChannels buf
  ∧ bufferLength buf' = bufferLength buf
  ∧ sampleRate buf' = sampleRate buf
  ∧ length (channels buf') = length (channels buf).
Proof.
  induction k as [|k IH]; [done|].
  rewrite seq_S, foldl_app. cbn [foldl updateChannel numberOfChannels
    bufferLength sampleRate channels Nat.add].
  destruct IH as (A & B & C & D).
  rewrite length_alter. done.
Qed.

Lemma channel_loop_untouched (g : nat → list sample → list sample) buf k j :
  (k ≤ j)%nat →
  channels (foldl (fun b c => updateChannel c (g c) b) buf (seq 0 k)) !! j
  = channels buf !! j.
Proof.
  induction k as [|k IH]; [done|]. intros Hk.
  rewrite seq_S, foldl_app. simpl.
  rewrite list_lookup_alter_ne by lia. apply IH. lia.
Qed.

Lemma channel_loop_lookup (g : nat → list sample → list sample) buf k j :
  (j < k)%nat →
  channels (foldl (fun b c => updateChannel c (g c) b) buf (seq 0 k)) !! j
  = g j <$> channels buf !! j.
Proof.
  induction k as [|k IH]; [lia|]. intros Hk.
  rewrite seq_S, foldl_app. simpl.
  destruct (decide (j = k)) as [->|Hne].
  - rewrite list_lookup_alter_eq. by rewrite channel_loop_untouched.
  - rewrite list_lookup_alter_ne by done. apply IH. lia.
Qed.

(** What every implementation accepts. *)
Lemma supportsChannels_spec ctx c :
  supportsChannels ctx c = true ↔ (0 < c ≤ maxChannels ctx)%nat.
Proof.
  unfold supportsChannels. rewrite andb_true_iff, negb_true_iff.
  rewrite Nat.eqb_neq, Nat.leb_le. lia.
Qed.

Lemma supportsChannels_required ctx c :
  (0 < c ≤ 32)%nat → supportsChannels ctx c = true.
Proof. intros H. apply supportsChannels_spec. unfold maxChannels. lia. Qed.

Lemma supportsRate_required ctx sr :
  (8000 <= sr)%Q → (sr <= 96000)%Q → supportsRate ctx sr = true.
Proof.
  intros Hl Hu. unfold supportsRate.
  assert (H0 : Qle_bool sr 0 = false).
  { destruct (Qle_bool sr 0) eqn:E; [|done].
    apply Qle_bool_iff in E. lra. }
  apply Qle_bool_iff in Hl, Hu.
  by rewrite H0, Hl, Hu, !orb_true_r.
Qed.

Lemma supportsRate_pos ctx sr : supportsRate ctx sr = true → (0 < sr)%Q.
Proof.
  unfold supportsRate. intros [[H _]%andb_true_iff _]%andb_true_iff.
  apply negb_true_iff in H.
  destruct (Qlt_le_dec 0 sr) as [?|Hle]; [done|].
  apply Qle_bool_iff in Hle. congruence.
Qed.

(** The defaults of [decodeAudioData] are within what every
    implementation accepts. *)
Lemma supports_defaults ctx :
  supportsChannels ctx defaultNumChannels = true
  ∧ supportsRate ctx defaultSampleRate = true.
Proof.
  split.
  - apply supportsChannels_required. unfold defaultNumChannels. lia.
  - by apply supportsRate_required.
Qed.

Lemma createBuffer_ok ctx (n c : nat) sr :
  supportsChannels ctx c = true → supportsRate ctx sr = true → (c ≤ n)%nat →
  createBuffer ctx c (inject_Z (Z.of_nat n) / inject_Z (Z.of_nat c)) sr
  = ret (mkAudioBuffer c (n / c) sr (replicate c (replicate (n / c) (Num 0)))).
Proof.
  intros Hc Hr Hn. unfold createBuffer. rewrite Hc, Hr.
  apply supportsChannels_spec in Hc.
  rewrite Qfloor_div, Nat2Z.id by lia.
  assert (0 < n / c)%nat by (apply Nat.div_str_pos; lia).
  destruct (Nat.eqb_spec (n / c) 0); [lia|]. done.
Qed.

Lemma createBuffer_short ctx (n c : nat) sr :
  supportsChannels ctx c = false ∨ (n < c)%nat ∨ supportsRate ctx sr = false →
  createBuffer ctx c (inject_Z (Z.of_nat n) / inject_Z (Z.of_nat c)) sr
  = throw NotSupportedError.
Proof.
  intros H. unfold createBuffer.
  destruct (supportsChannels ctx c) eqn:Hc; [|done].
  destruct (supportsRate ctx sr) eqn:Hr; [|by rewrite orb_true_r].
  destruct H as [?|[Hn|?]]; [done| |done].
  apply supportsChannels_spec in Hc.
  rewrite Qfloor_div, Nat2Z.id by lia.
  by rewrite Nat.div_small.
Qed.

(** What a successful decode returns: [length elems / C] frames in each
    of the [C] channels, frame [i] of channel [ch] holding element
    [i * C + ch] of the view, scaled. *)
Lemma decodeAudioData_ok data elems ctx sr C :
  Int16Array data = ret elems →
  supportsChannels ctx C = true → supportsRate ctx sr = true →
  (C ≤ length elems)%nat →
  ∃ buf, decodeAudioData data ctx sr C = ret buf
    ∧ numberOfChannels buf = C
    ∧ bufferLength buf = (length elems / C)%nat
    ∧ sampleRate buf = sr
    ∧ length (channels buf) = C
    ∧ ∀ ch, (ch < C)%nat →
        ∃ cd, channels buf !! ch = Some cd
          ∧ length cd = (length elems / C)%nat
          ∧ ∀ i, (i < length elems / C)%nat →
              ∃ z, elems !! (i * C + ch)%nat = Some z
                ∧ cd !! i = Some (Num (inject_Z z / 32768)).
Proof.
  intros E HC Hsr HN. unfold decodeAudioData. rewrite E. cbn [bind ret].
  rewrite createBuffer_ok by done. cbn [bind ret].
  apply supportsChannels_spec in HC as [HC _].
  set (F := (length elems / C)%nat).
  set (fc := (inject_Z (Z.of_nat (length elems)) / inject_Z (Z.of_nat C))%Q).
  set (b0 := mkAudioBuffer C F sr (replicate C (replicate F (Num 0)))).
  set (g := fun c => fillChannel elems C c fc).
  eexists. split; [reflexivity|].
  destruct (channel_loop_shape g b0 C) as (H1 & H2 & H3 & H4).
  split; [exact H1|]. split; [exact H2|]. split; [exact H3|].
  split; [etrans; [exact H4|]; simpl; apply length_replicate|].
  intros ch Hch.
  exists (g ch (replicate F (Num 0))).
  split.
  { etrans; [exact (channel_loop_lookup g b0 C ch Hch)|]. simpl.
    by rewrite lookup_replicate_2. }
  split.
  { unfold g, fillChannel. by rewrite store_loop_length, length_replicate. }
  intros i Hi.
  assert (Hidx : (i * C + ch < length elems)%nat).
  { pose proof (Nat.Div0.mul_div_le (length elems) C). fold F in H. nia. }
  destruct (lookup_lt_is_Some_2 elems _ Hidx) as [z Hz].
  exists z. split; [done|].
  unfold g, fillChannel.
  rewrite store_loop_lookup.
  - unfold scaled. by rewrite Hz.
  - by rewrite length_replicate.
  - eapply Nat.lt_le_trans; [exact Hi|]. by apply iterations_div_ge.
Qed.

(** Decoding throws when the view cannot be built, and when
    [createBuffer] rejects the channel count, the frame count or the
    sample rate. *)
Lemma decodeAudioData_throws data ctx sr C :
  (Nat.even (length data) = false →
     decodeAudioData data ctx sr C = throw RangeError)
  ∧ (Nat.even (length data) = true →
     supportsChannels ctx C = false ∨ (length data / 2 < C)%nat
       ∨ supportsRate ctx sr = false →
     decodeAudioData data ctx sr C = throw NotSupportedError).
Proof.
  split.
  - intros H. unfold decodeAudioData. by rewrite Int16Array_odd.
  - intros H HC. destruct (Int16Array_even data H) as (elems & E & L).
    unfold decodeAudioData. rewrite E. cbn [bind ret].
    rewrite createBuffer_short; [done|].
    destruct HC as [?|[HC|?]]; [by left| |by right; right].
    right; left.
    rewrite L in HC. rewrite Nat.mul_comm, Nat.div_mul in HC by done. done.
Qed.

End geminiFacts.

Module DecodeSpec.
Import Js WebAudio gemini JsFacts geminiFacts.

(** C6, amended.  A payload of [N] 16-bit samples, [N] at least 1 and
    divisible by the channel count [C], with a channel count and a sample
    rate that [createBuffer] accepts, decodes to a buffer of [C] channels
    with [N / C] frames each; frame [i] of channel [ch] is the signed
    16-bit integer read from bytes [2(iC+ch)] and [2(iC+ch)+1], divided
    by 32768, and lies between -1 and 1. *)
Theorem decodeAudioData_frames (data : list byte) (ctx : AudioContext)
    (sr : Q) (N C : nat) :
  length data = (2 * N)%nat → (0 < N)%nat → Nat.divide C N →
  supportsChannels ctx C = true → supportsRate ctx sr = true →
  ∃ buf, decodeAudioData data ctx sr C = ret buf
    ∧ numberOfChannels buf = C
    ∧ bufferLength buf = (N / C)%nat
    ∧ sampleRate buf = sr
    ∧ length (channels buf) = C
    ∧ ∀ ch, (ch < C)%nat →
        ∃ cd, channels buf !! ch = Some cd
          ∧ length cd = (N / C)%nat
          ∧ ∀ i, (i < N / C)%nat →
              ∃ lo hi,
                data !! (2 * (i * C + ch))%nat = Some lo
                ∧ data !! (2 * (i * C + ch) + 1)%nat = Some hi
                ∧ cd !! i = Some (Num (inject_Z (int16_of_bytes lo hi) / 32768))
                ∧ (-1 <= inject_Z (int16_of_bytes lo hi) / 32768 <= 1)%Q.
Proof.
  intros Hlen HN [k Hk] HC Hsr.
  assert (Heven : Nat.even (length data) = true).
  { rewrite Hlen. apply Nat.even_spec. by exists N. }
  destruct (Int16Array_even data Heven) as (elems & E & L).
  assert (HNe : length elems = N) by lia.
  assert (HCN : (C ≤ length elems)%nat).
  { rewrite HNe, Hk. destruct k; [lia|]. simpl. lia. }
  destruct (decodeAudioData_ok data elems ctx sr C E HC Hsr HCN)
    as (buf & D & H1 & H2 & H3 & H4 & H5).
  rewrite HNe in *.
  exists buf. repeat split; try done.
  intros ch Hch. destruct (H5 ch Hch) as (cd & Hcd & Lcd & Hs).
  exists cd. repeat split; try done.
  intros i Hi. destruct (Hs i Hi) as (z & Hz & Hcell).
  destruct (Int16Array_lookup data elems _ z E Hz) as (lo & hi & A & B & ->).
  exists lo, hi. repeat split; try done;
    apply scaled_unit, int16_of_bytes_range.
Qed.

Lemma decodeAudioData_frames_witness :
  let data := ["001"; "000"; "255"; "127"; "000"; "128"; "255"; "255"]%byte in
  let ctx := mkAudioContext 24000 in
  length data = (2 * 4)%nat ∧ (0 < 4)%nat ∧ Nat.divide 2 4
  ∧ supportsChannels ctx 2 = true ∧ supportsRate ctx 24000 = true
  ∧ ∃ buf, decodeAudioData data ctx 24000 2 = ret buf
      ∧ numberOfChannels buf = 2%nat
      ∧ bufferLength buf = (4 / 2)%nat.
Proof.
  intros data ctx.
  assert (H1 : length data = (2 * 4)%nat) by reflexivity.
  assert (H2 : (0 < 4)%nat) by lia.
  assert (H3 : Nat.divide 2 4) by (exists 2%nat; reflexivity).
  assert (H4 : supportsChannels ctx 2 = true) by reflexivity.
  assert (H5 : supportsRate ctx 24000 = true) by reflexivity.
  destruct (decodeAudioData_frames data ctx 24000 4 2 H1 H2 H3 H4 H5)
    as (buf & D & A & B & _).
  split; [exact H1|]. split; [exact H2|]. split; [exact H3|].
  split; [exact H4|]. split; [exact H5|].
  exists buf. split; [exact D|]. split; [exact A|exact B].
Defined.

(** The claim of C6 fails for the empty payload, which is what
    [generateSpeech] returns when the response holds no audio: it has
    [N = 0] samples, 0 is divisible by the one channel of the defaults,
    and instead of a buffer of [0 / 1 = 0] frames the call throws,
    because [createBuffer] rejects a length of 0. *)
Lemma decodeAudioData_empty :
  let data : list byte := [] in
  let ctx := mkAudioContext 24000 in
  length data = (2 * 0)%nat ∧ Nat.divide defaultNumChannels 0
  ∧ supportsChannels ctx defaultNumChannels = true
  ∧ supportsRate ctx defaultSampleRate = true
  ∧ decodeAudioData data ctx defaultSampleRate defaultNumChannels
    = throw NotSupportedError.
Proof.
  repeat split; try reflexivity. by exists 0%nat.
Qed.

(** The claim of C7 fails: six bytes are not a multiple of
    [numChannels * 2 = 4] bytes, and decoding returns a buffer of one
    frame per channel; the third sample is dropped. *)
Lemma decodeAudioData_partial_frame :
  let data := ["001"; "000"; "255"; "255"; "000"; "128"]%byte in
  (length data `mod` (2 * 2) ≠ 0)%nat
  ∧ decodeAudioData data (mkAudioContext 24000) 24000 2
    = ret (mkAudioBuffer 2 1 24000
             [[Num (inject_Z 1 / 32768)]; [Num (inject_Z (-1) / 32768)]]).
Proof. split; [simpl; lia|reflexivity]. Qed.

(** C7, amended.  With [N] the number of 16-bit samples, decoding throws
    RangeError exactly when the byte length is odd, and
    NotSupportedError exactly when the length is even and [createBuffer]
    rejects its arguments: the channel count is 0 or above what the
    implementation accepts, there are fewer samples than channels, or
    the sample rate is not one the implementation accepts.  In every
    other case it returns a buffer of [N / numChannels] frames, whether
    or not [numChannels] divides [N].  For 1 to 32 channels and a rate
    from 8000 to 96000 Hz, which every implementation accepts, the only
    NotSupportedError is the one for fewer samples than channels. *)
Theorem decodeAudioData_failure_cases (data : list byte) (ctx : AudioContext)
    (sr : Q) (C : nat) :
  (decodeAudioData data ctx sr C = throw RangeError
     ↔ Nat.even (length data) = false)
  ∧ (decodeAudioData data ctx sr C = throw NotSupportedError
     ↔ Nat.even (length data) = true
       ∧ (supportsChannels ctx C = false ∨ (length data / 2 < C)%nat
          ∨ supportsRate ctx sr = false))
  ∧ ((∃ buf, decodeAudioData data ctx sr C = ret buf
             ∧ numberOfChannels buf = C
             ∧ bufferLength buf = (length data / 2 / C)%nat
             ∧ sampleRate buf = sr)
     ↔ Nat.even (length data) = true
       ∧ supportsChannels ctx C = true ∧ (C ≤ length data / 2)%nat
       ∧ supportsRate ctx sr = true)
  ∧ ((0 < C ≤ 32)%nat → (8000 <= sr)%Q → (sr <= 96000)%Q →
     (decodeAudioData data ctx sr C = throw NotSupportedError
      ↔ Nat.even (length data) = true ∧ (length data / 2 < C)%nat)).
Proof.
  destruct (decodeAudioData_throws data ctx sr C) as [Todd Tshort].
  assert (Main :
    (decodeAudioData data ctx sr C = throw RangeError
       ↔ Nat.even (length data) = false)
    ∧ (decodeAudioData data ctx sr C = throw NotSupportedError
       ↔ Nat.even (length data) = true
         ∧ (supportsChannels ctx C = false ∨ (length data / 2 < C)%nat
            ∨ supportsRate ctx sr = false))
    ∧ ((∃ buf, decodeAudioData data ctx sr C = ret buf
               ∧ numberOfChannels buf = C
               ∧ bufferLength buf = (length data / 2 / C)%nat
               ∧ sampleRate buf = sr)
       ↔ Nat.even (length data) = true
         ∧ supportsChannels ctx C = true ∧ (C ≤ length data / 2)%nat
         ∧ supportsRate ctx sr = true)).
  { destruct (Nat.even (length data)) eqn:Heven.
    - destruct (Int16Array_even data Heven) as (elems & E & L).
      assert (HN : (length data / 2 = length elems)%nat).
      { rewrite L, Nat.mul_comm. by apply Nat.div_mul. }
      destruct (supportsChannels ctx C) eqn:HC.
      2:{ rewrite (Tshort eq_refl (or_introl eq_refl)). unfold throw.
          split; [split; [done|done]|].
          split; [split; [intros _; split; [done|by left]|done]|].
          split; [intros (buf & D & _); done|intros (_ & ? & _); done]. }
      destruct (supportsRate ctx sr) eqn:Hsr.
      2:{ rewrite (Tshort eq_refl (or_intror (or_intror eq_refl))). unfold throw.
          split; [split; [done|done]|].
          split; [split; [intros _; split; [done|by right; right]|done]|].
          split; [intros (buf & D & _); done|intros (_ & _ & _ & ?); done]. }
      destruct (le_lt_dec C (length data / 2)) as [HCN|HCN].
      + assert (HCN' : (C ≤ length elems)%nat) by lia.
        destruct (decodeAudioData_ok data elems ctx sr C E HC Hsr HCN')
          as (buf & D & H1 & H2 & H3 & _).
        rewrite D. unfold ret, throw.
        split; [split; [done|done]|].
        split; [split; [done|intros [_ [?|[?|?]]]; [done|lia|done]]|].
        split; [done|]. intros _. exists buf. by rewrite HN.
      + rewrite (Tshort eq_refl (or_intror (or_introl HCN))). unfold throw.
        split; [split; [done|done]|].
        split; [split; [intros _; split; [done|by right; left]|done]|].
        split; [intros (buf & D & _); done|intros (_ & _ & ? & _); lia].
    - rewrite (Todd eq_refl). unfold throw.
      split; [done|].
      split; [split; [done|intros [? _]; done]|].
      split; [intros (buf & D & _); done|intros [? _]; done]. }
  destruct Main as (M1 & M2 & M3).
  split; [exact M1|]. split; [exact M2|]. split; [exact M3|].
  intros HC Hl Hu. rewrite M2.
  rewrite (supportsChannels_required ctx C HC).
  rewrite (supportsRate_required ctx sr Hl Hu).
  split.
  - intros [? [?|[?|?]]]; done.
  - intros [? ?]. split; [done|by right; left].
Qed.

End DecodeSpec.

(** ** The live session *)

Module LiveSessionFacts.
Import Js WebAudio gemini JsFacts geminiFacts LiveSession.
Local Open Scope Q_scope.

(** A sample in [-1, 1), scaled, truncates into the 16-bit range. *)
Lemma truncate_scaled_range (x : Q) :
  -1 <= x → x < 1 → (-32768 <= truncate (x * 32768) <= 32767)%Z.
Proof.
  destruct x as [n d]. unfold Qle, Qlt, truncate, Qmult. simpl.
  rewrite Pos.mul_1_r. intros Hl Hu.
  destruct (Z_lt_le_dec n 0) as [Hneg|Hpos].
  - replace (n * 32768)%Z with (- (-n * 32768))%Z by lia.
    rewrite Z.quot_opp_l by lia.
    rewrite Z.quot_div_nonneg by lia.
    assert ((- n * 32768) `div` Z.pos d <= 32768)%Z
      by (apply Z.div_le_upper_bound; lia).
    assert (0 <= (- n * 32768) `div` Z.pos d)%Z
      by (apply Z.div_pos; lia).
    lia.
  - rewrite Z.quot_div_nonneg by lia.
    assert ((n * 32768) `div` Z.pos d < 32768)%Z
      by (apply Z.div_lt_upper_bound; lia).
    assert (0 <= (n * 32768) `div` Z.pos d)%Z
      by (apply Z.div_pos; lia).
    lia.
Qed.

(** Full scale, in whatever fraction it is written, scales to 32768. *)
Lemma truncate_scaled_one (x : Q) : x == 1 → truncate (x * 32768) = 32768%Z.
Proof.
  destruct x as [n d]. unfold Qeq, truncate, Qmult. simpl.
  rewrite Pos.mul_1_r. intros H.
  replace n with (Z.pos d) by lia.
  rewrite Z.mul_comm. by apply Z.quot_mul.
Qed.

Lemma onaudioprocess_lookup inputData i x :
  inputData !! i = Some x →
  onaudioprocess inputData !! i = Some (ToInt16 (x * 32768)).
Proof.
  intros H. pose proof (lookup_lt_Some _ _ _ H) as Hi.
  unfold onaudioprocess.
  rewrite store_loop_lookup; [|by rewrite length_replicate|done].
  unfold pcm. by rewrite H.
Qed.

Lemma onaudioprocess_length inputData :
  length (onaudioprocess inputData) = length inputData.
Proof. unfold onaudioprocess. by rewrite store_loop_length, length_replicate. Qed.

(** Stopping the nodes of a set: a node in the set ends up stopped, any
    other node is left as it was. *)
Lemma stop_idem s : stop (stop s) = stop s.
Proof. done. Qed.

Lemma stop_all_length ids (ns : list SourceNode) :
  length (foldr (fun i ns => alter stop i ns) ns ids) = length ns.
Proof. induction ids as [|i ids IH]; simpl; [done|]. by rewrite length_alter. Qed.

Lemma stop_all_in ids (ns : list SourceNode) j s :
  j ∈ ids →
  foldr (fun i ns => alter stop i ns) ns ids !! j = Some s → stopped s = true.
Proof.
  induction ids as [|i ids IH] in s |- *; intros Hj; [by apply elem_of_nil in Hj|].
  simpl. destruct (decide (j = i)) as [->|Hne].
  - rewrite list_lookup_alter_eq.
    destruct (foldr _ ns ids !! i); [|done]. by intros [= <-].
  - rewrite list_lookup_alter_ne by done.
    apply IH. apply elem_of_cons in Hj. by destruct Hj.
Qed.

Lemma stop_all_notin ids (ns : list SourceNode) j :
  j ∉ ids →
  foldr (fun i ns => alter stop i ns) ns ids !! j = ns !! j.
Proof.
  induction ids as [|i ids IH]; intros Hj; [done|].
  simpl. apply not_elem_of_cons in Hj as [Hne Hj].
  rewrite list_lookup_alter_ne by done. by apply IH.
Qed.

Lemma deliver_chunk st ctx m :
  audioContextRef st = Some ctx → chunk ctx m →
  ∃ bytes buf, data m.2 = Some bytes
    ∧ decodeAudioData bytes ctx defaultSampleRate defaultNumChannels = ret buf
    ∧ deliver st m = schedule m.1 buf st.
Proof.
  intros Hctx (Hi & bytes & buf & Hd & Hdec).
  exists bytes, buf. split; [done|]. split; [done|].
  unfold deliver, onmessage.
  by rewrite Hd, Hctx, Hdec, Hi.
Qed.

(** The nodes a list of chunks adds: each holds the decoded chunk,
    starts at the larger of the cursor and the clock, and moves the
    cursor to its end. *)
Lemma run_chunks st ctx ms :
  audioContextRef st = Some ctx → Forall (chunk ctx) ms →
  ∃ started : list SourceNode,
    nodes (run ms st) = nodes st ++ started
    ∧ length started = length ms
    ∧ ∀ i m s, ms !! i = Some m → started !! i = Some s →
        (∃ bytes, data m.2 = Some bytes
           ∧ decodeAudioData bytes ctx defaultSampleRate defaultNumChannels
             = ret (buffer s))
        ∧ startedAt s = Math_max (nextStartTimeRef (run (take i ms) st)) m.1
        ∧ nextStartTimeRef (run (take (S i) ms) st)
          = startedAt s + duration (buffer s).
Proof.
  intros Hctx Hms. revert st Hctx.
  induction Hms as [|m ms Hm Hms IH]; intros st Hctx.
  - exists []. simpl. rewrite app_nil_r. repeat split; try done.
  - destruct (deliver_chunk st ctx m Hctx Hm) as (bytes & buf & Hb & Hdec & Hd).
    destruct (IH (deliver st m)) as (started & Hn & Hl & Hs).
    { by rewrite Hd. }
    exists (mkSourceNode buf (Math_max (nextStartTimeRef st) m.1) false :: started).
    split.
    { change (run (m :: ms) st) with (run ms (deliver st m)).
      rewrite Hn, Hd. simpl. by rewrite <- app_assoc. }
    split; [simpl; by rewrite Hl|].
    intros i m' s Hi Hsi. destruct i as [|i].
    + injection Hi as <-. injection Hsi as <-. simpl.
      split; [by exists bytes|].
      split; [done|]. unfold run. simpl. by rewrite Hd.
    + simpl in Hi, Hsi. destruct (Hs i m' s Hi Hsi) as (A & B & C).
      split; [exact A|]. split; [exact B|exact C].
Qed.






End LiveSessionFacts.

Module LiveSessionSpec.
Import Js WebAudio gemini JsFacts LiveSession LiveSessionFacts.
Local Open Scope Q_scope.

(** C1.  For every list of decodable chunks delivered from any state of
    the session: the chunks add one node each, in order; each node starts
    at [max(cursor, clock)] and moves the cursor to its start plus its
    buffer's duration; and when a chunk arrives before its own start
    time, that start time is the previous chunk's start plus the previous
    chunk's duration. *)
Theorem onmessage_gapless (st : State) (ctx : AudioContext)
    (ms : list (Q * Message)) :
  audioContextRef st = Some ctx → Forall (chunk ctx) ms →
  ∃ started : list SourceNode,
    nodes (run ms st) = nodes st ++ started
    ∧ length started = length ms
    ∧ (∀ i m s, ms !! i = Some m → started !! i = Some s →
         (∃ bytes, data m.2 = Some bytes
            ∧ decodeAudioData bytes ctx defaultSampleRate defaultNumChannels
              = ret (buffer s))
         ∧ startedAt s = Math_max (nextStartTimeRef (run (take i ms) st)) m.1
         ∧ nextStartTimeRef (run (take (S i) ms) st)
           = startedAt s + duration (buffer s))
    ∧ (∀ i m s s', started !! i = Some s → started !! S i = Some s' →
         ms !! S i = Some m → m.1 < startedAt s' →
         startedAt s' = startedAt s + duration (buffer s)).
Proof.
  intros Hctx Hms.
  destruct (run_chunks st ctx ms Hctx Hms) as (started & Hn & Hl & Hs).
  exists started. split; [done|]. split; [done|]. split; [exact Hs|].
  intros i m s s' Hi Hi' Hm Hlt.
  assert (is_Some (ms !! i)) as [m0 Hm0].
  { apply lookup_lt_is_Some. rewrite <- Hl. by eapply lookup_lt_Some. }
  destruct (Hs i m0 s Hm0 Hi) as (_ & _ & Hcur).
  destruct (Hs (S i) m s' Hm Hi') as (_ & Hstart & _).
  rewrite Hcur in Hstart. rewrite Hstart in Hlt |- *.
  unfold Math_max in *.
  destruct (Qle_bool m.1 (startedAt s + duration (buffer s))); [done|].
  exfalso. by apply (Qlt_irrefl m.1).
Qed.

Lemma onmessage_gapless_witness :
  let ctx := mkAudioContext 24000 in
  let pcm := ["001"; "000"; "255"; "127"; "000"; "128"; "255"; "255"]%byte in
  let ms := [(0, mkMessage (Some pcm) false);
             (1 # 48000, mkMessage (Some pcm) false);
             (1 # 24000, mkMessage (Some pcm) false)] in
  audioContextRef opened = Some ctx ∧ Forall (chunk ctx) ms
  ∧ ∃ started, nodes (run ms opened) = nodes opened ++ started
               ∧ length started = length ms.
Proof.
  intros ctx pcm ms.
  assert (H1 : audioContextRef opened = Some ctx) by reflexivity.
  assert (H2 : Forall (chunk ctx) ms).
  { repeat constructor; eexists _, _; split; reflexivity. }
  destruct (onmessage_gapless opened ctx ms H1 H2) as (started & A & B & _).
  split; [exact H1|]. split; [exact H2|].
  exists started. split; [exact A|exact B].
Defined.




(** C10.  Sample [i] of the captured frame is sent as
    [ToInt16(x * 32768)]: the product truncated toward zero and wrapped
    modulo 2^16 into the signed 16-bit range.  For [x] equal to 1 that is
    -32768, and for [-1 <= x < 1] it is the truncated product itself. *)
Theorem onaudioprocess_wraps (inputData : list Q) (i : nat) (x : Q) :
  inputData !! i = Some x →
  onaudioprocess inputData !! i = Some (wrap16 (truncate (x * 32768)))
  ∧ (x == 1 → onaudioprocess inputData !! i = Some (-32768)%Z)
  ∧ (-1 <= x → x < 1 →
     onaudioprocess inputData !! i = Some (truncate (x * 32768))
     ∧ (-32768 <= truncate (x * 32768) <= 32767)%Z).
Proof.
  intros H. rewrite (onaudioprocess_lookup _ _ _ H). unfold ToInt16.
  split; [done|]. split.
  - intros Hx. by rewrite (truncate_scaled_one x Hx).
  - intros Hl Hu. pose proof (truncate_scaled_range x Hl Hu) as Hr.
    by rewrite wrap16_small.
Qed.

Lemma onaudioprocess_wraps_witness :
  let frame := [1; -1; 1 # 2; -1 # 3; 32767 # 32768] in
  frame !! 0%nat = Some 1
  ∧ onaudioprocess frame = [-32768; -32768; 16384; -10922; 32767]%Z
  ∧ onaudioprocess frame !! 0%nat = Some (-32768)%Z.
Proof.
  intros frame.
  assert (H : frame !! 0%nat = Some 1) by reflexivity.
  destruct (onaudioprocess_wraps frame 0 1 H) as (_ & A & _).
  split; [exact H|]. split; [reflexivity|exact (A (Qeq_refl 1))].
Defined.

End LiveSessionSpec.

(** ** The player *)

Module PlayerFacts.
Import Js WebAudio gemini JsFacts MeditationPlayer.
Local Open Scope Q_scope.

(** *** Captions *)

Lemma inSegment_covers elapsed s : inSegment elapsed s = true ↔ covers elapsed s.
Proof.
  unfold inSegment, covers. rewrite andb_true_iff, !Qle_bool_iff. done.
Qed.

Lemma find_first_match {A} (f : A → bool) (l : list A) :
  (∃ pre x post, l = pre ++ x :: post ∧ Forall (fun y => f y = false) pre
                 ∧ f x = true ∧ List.find f l = Some x)
  ∨ (Forall (fun y => f y = false) l ∧ List.find f l = None).
Proof.
  induction l as [|a l IH]; [right; by split|].
  simpl. destruct (f a) eqn:Ha.
  - left. exists [], a, l. repeat split; done.
  - destruct IH as [(pre & x & post & -> & Hpre & Hx & Hf)|[Hall Hf]].
    + left. exists (a :: pre), x, post. repeat split; try done.
      by constructor.
    + right. split; [by constructor|done].
Qed.

(** *** What [stopAudio] does to each part of the player *)

Lemma stopAudio_nodes p :
  nodes (stopAudio p)
  = match sourceNodeRef p with
    | Some i => alter stopNode i (nodes p)
    | None => nodes p
    end.
Proof. unfold stopAudio. by destruct (sourceNodeRef p). Qed.

Lemma stopAudio_sourceNodeRef p : sourceNodeRef (stopAudio p) = None.
Proof. unfold stopAudio. by destruct (sourceNodeRef p) eqn:E. Qed.

Lemma stopAudio_hooks p : hooks (stopAudio p) = setIsPlaying false (hooks p).
Proof. unfold stopAudio. by destruct (sourceNodeRef p). Qed.

Lemma stopAudio_frames p :
  frames (stopAudio p) = filter (fun f => f.1 ≠ animationFrameRef p) (frames p).
Proof. unfold stopAudio. by destruct (sourceNodeRef p). Qed.

Lemma stopAudio_refs p :
  pausedTimeRef (stopAudio p) = pausedTimeRef p
  ∧ startTimeRef (stopAudio p) = startTimeRef p
  ∧ animationFrameRef (stopAudio p) = animationFrameRef p
  ∧ audioContextRef (stopAudio p) = audioContextRef p
  ∧ rendered (stopAudio p) = rendered p.
Proof. unfold stopAudio. by destruct (sourceNodeRef p). Qed.

Lemma active_stopNode s : active (stopNode s) = false.
Proof. done. Qed.

Lemma active_endNode s : active (endNode s) = false.
Proof. unfold active. simpl. by rewrite andb_false_r. Qed.

(** After [stopAudio] a node produces output only if it did before and
    was not the one the ref named. *)
Lemma stopAudio_isActive p i :
  isActive (stopAudio p) i = true →
  isActive p i = true ∧ sourceNodeRef p ≠ Some i.
Proof.
  unfold isActive. rewrite stopAudio_nodes.
  destruct (sourceNodeRef p) as [j|]; [|done].
  destruct (decide (i = j)) as [->|Hne].
  - rewrite list_lookup_alter_eq. destruct (nodes p !! j); simpl; [|done].
    by rewrite active_stopNode.
  - rewrite list_lookup_alter_ne by done. intros H. split; [done|congruence].
Qed.

(** *** The invariant of a player whose renders are committed *)

Lemma elem_of_alter_nodes (f : SourceNode → SourceNode) i (ns : list SourceNode) s :
  s ∈ alter f i ns → s ∈ ns ∨ ∃ s0, s0 ∈ ns ∧ s = f s0.
Proof.
  intros H. apply list_elem_of_lookup in H as [j Hj].
  destruct (decide (j = i)) as [->|Hne].
  - rewrite list_lookup_alter_eq in Hj.
    destruct (ns !! i) as [s0|] eqn:E; [|done]. injection Hj as <-.
    right. exists s0. split; [|done]. apply list_elem_of_lookup. eauto.
  - rewrite list_lookup_alter_ne in Hj by done.
    left. apply list_elem_of_lookup. eauto.
Qed.

Lemma tidy_stopAudio p : tidy p → tidy (stopAudio p).
Proof.
  intros [HA HB]. split.
  - intros i Hi. apply stopAudio_isActive in Hi as [Hi Hne].
    destruct (HA i Hi) as [? _]. done.
  - intros s Hs. rewrite stopAudio_nodes in Hs.
    destruct (sourceNodeRef p) as [j|]; [|by apply HB].
    apply elem_of_alter_nodes in Hs as [Hs|(s0 & Hs0 & ->)]; [by apply HB|].
    simpl. by apply HB.
Qed.

Lemma stopAudio_silent p : tidy p → ∀ i, isActive (stopAudio p) i = false.
Proof.
  intros [HA _] i. destruct (isActive (stopAudio p) i) eqn:E; [|done].
  apply stopAudio_isActive in E as [Hi Hne]. destruct (HA i Hi) as [? _]. done.
Qed.

(** The invariant only looks at the nodes, the ref and the playing
    cell. *)
Lemma tidy_ext p q :
  nodes q = nodes p → sourceNodeRef q = sourceNodeRef p →
  isPlaying (hooks q) = isPlaying (hooks p) → tidy p → tidy q.
Proof.
  intros Hn Hs Hh [HA HB]. split.
  - intros i Hi. unfold isActive in Hi. rewrite Hn in Hi.
    rewrite Hs, Hh. by apply HA.
  - intros s. rewrite Hn. apply HB.
Qed.

Lemma tidy_silent p :
  tidy p → isPlaying (hooks p) = false → ∀ i, isActive p i = false.
Proof.
  intros [HA _] Hh i. destruct (isActive p i) eqn:E; [|done].
  destruct (HA i E) as [_ ?]. congruence.
Qed.

(** *** [startAudio] *)

Lemma startAudio_cases session env fromTime now p :
  startAudio session env fromTime now p = p
  ∨ ∃ ctx buf, audioContextRef p = Some ctx
      ∧ decodeAudioData (audio session) ctx defaultSampleRate defaultNumChannels
        = ret buf.
Proof.
  unfold startAudio. destruct (audioContextRef p) as [ctx|]; [|by left].
  destruct (decodeAudioData _ _ _ _) as [e|buf] eqn:E; [by left|].
  right. by exists ctx, buf.
Qed.

Lemma startAudio_started session env fromTime now p ctx buf :
  audioContextRef p = Some ctx →
  decodeAudioData (audio session) ctx defaultSampleRate defaultNumChannels = ret buf →
  let p' := startAudio session env fromTime now p in
  nodes p' = nodes p ++ [mkSourceNode buf fromTime false false env]
  ∧ sourceNodeRef p' = Some (length (nodes p))
  ∧ startTimeRef p' = now - fromTime
  ∧ hooks p' = setIsPlaying true (hooks p)
  ∧ pausedTimeRef p' = pausedTimeRef p
  ∧ rendered p' = rendered p
  ∧ audioContextRef p' = audioContextRef p
  ∧ frames p' = frames p ++ [(S (lastFrame p), env)].
Proof.
  intros Hctx Hdec. unfold startAudio. rewrite Hctx, Hdec. simpl.
  rewrite length_app, Nat.add_1_r. simpl. by rewrite Hctx.
Qed.

Lemma tidy_startAudio session env fromTime now p :
  tidy p → isPlaying env = false → (∀ i, isActive p i = false) →
  tidy (startAudio session env fromTime now p).
Proof.
  intros Ht Henv Hsilent.
  destruct (startAudio_cases session env fromTime now p)
    as [->|(ctx & buf & Hctx & Hdec)]; [done|].
  destruct (startAudio_started session env fromTime now p ctx buf Hctx Hdec)
    as (Hn & Hs & _ & Hh & _).
  destruct Ht as [HA HB]. split.
  - intros i Hi. unfold isActive in Hi. rewrite Hn in Hi.
    rewrite Hs, Hh. simpl.
    destruct (decide (i < length (nodes p))%nat) as [Hlt|Hge].
    + rewrite lookup_app_l in Hi by done.
      specialize (Hsilent i). unfold isActive in Hsilent. congruence.
    + destruct (decide (i = length (nodes p))) as [->|Hne]; [done|].
      rewrite lookup_ge_None_2 in Hi; [done|].
      rewrite length_app. simpl. lia.
  - intros s. rewrite Hn. intros Hs'.
    apply elem_of_app in Hs' as [Hs'|Hs']; [by apply HB|].
    apply list_elem_of_singleton in Hs'. by subst s.
Qed.

Lemma startAudio_length session env fromTime now p :
  (length (nodes p) ≤ length (nodes (startAudio session env fromTime now p)))%nat.
Proof.
  destruct (startAudio_cases session env fromTime now p)
    as [->|(ctx & buf & Hctx & Hdec)]; [done|].
  destruct (startAudio_started session env fromTime now p ctx buf Hctx Hdec)
    as (-> & _). rewrite length_app. lia.
Qed.

(** *** [togglePlay] in a render that has the current playing cell *)

Lemma tidy_togglePlay session env now p :
  tidy p → isPlaying env = isPlaying (hooks p) →
  tidy (togglePlay session env now p).
Proof.
  intros Ht Henv. unfold togglePlay.
  destruct (isPlaying env) eqn:E.
  - destruct (audioContextRef p); [|done].
    apply tidy_stopAudio. by apply (tidy_ext p).
  - apply tidy_startAudio; [done|done|]. by apply tidy_silent.
Qed.

Lemma togglePlay_grows session env now p :
  tidy p → isPlaying env = isPlaying (hooks p) →
  (length (nodes p) < length (nodes (togglePlay session env now p)))%nat →
  ∀ i, isActive p i = false.
Proof.
  intros Ht Henv. unfold togglePlay.
  destruct (isPlaying env) eqn:E.
  - destruct (audioContextRef p); [|lia].
    rewrite stopAudio_nodes. simpl.
    destruct (sourceNodeRef p); [rewrite length_alter|]; lia.
  - intros _. by apply tidy_silent.
Qed.

(** *** The effect on [externalCommand] *)

(** [onClose] leaves the player as [stopAudio] does, the count of the
    calls apart. *)
Lemma onClose_fields p :
  hooks (onClose p) = hooks (stopAudio p)
  ∧ rendered (onClose p) = rendered (stopAudio p)
  ∧ audioContextRef (onClose p) = audioContextRef (stopAudio p)
  ∧ sourceNodeRef (onClose p) = sourceNodeRef (stopAudio p)
  ∧ startTimeRef (onClose p) = startTimeRef (stopAudio p)
  ∧ pausedTimeRef (onClose p) = pausedTimeRef (stopAudio p)
  ∧ animationFrameRef (onClose p) = animationFrameRef (stopAudio p)
  ∧ nodes (onClose p) = nodes (stopAudio p)
  ∧ frames (onClose p) = frames (stopAudio p)
  ∧ lastFrame (onClose p) = lastFrame (stopAudio p).
Proof. unfold onClose, stopAudio. simpl. by destruct (sourceNodeRef p). Qed.

Lemma tidy_onClose p : tidy p → tidy (onClose p).
Proof.
  intros Ht. destruct (onClose_fields p) as (Hh & _ & _ & Hs & _ & _ & _ & Hn & _).
  apply (tidy_ext (stopAudio p)); [done|done|by rewrite Hh|by apply tidy_stopAudio].
Qed.

Lemma externalCommandEffect_cases session env c now p :
  externalCommandEffect session env c now p
  = match c with
    | Some play => if isPlaying env then p else togglePlay session env now p
    | Some pause => if isPlaying env then togglePlay session env now p else p
    | Some stop => onClose p
    | None => p
    end.
Proof.
  unfold externalCommandEffect.
  destruct c as [[]|]; [by destruct (isPlaying env)|done|done|done].
Qed.

Lemma tidy_externalCommandEffect session env c now p :
  tidy p → isPlaying env = isPlaying (hooks p) →
  tidy (externalCommandEffect session env c now p).
Proof.
  intros Ht Henv. rewrite externalCommandEffect_cases.
  destruct c as [[]|]; [| |by apply tidy_onClose|done];
    destruct (isPlaying env) eqn:E; try done;
    apply tidy_togglePlay; congruence.
Qed.

Lemma externalCommandEffect_grows session env c now p :
  tidy p → isPlaying env = isPlaying (hooks p) →
  (length (nodes p) < length (nodes (externalCommandEffect session env c now p)))%nat →
  ∀ i, isActive p i = false.
Proof.
  intros Ht Henv. rewrite externalCommandEffect_cases.
  destruct c as [[]|]; [| | |lia].
  - destruct (isPlaying env) eqn:E; [lia|].
    apply togglePlay_grows; congruence.
  - destruct (isPlaying env) eqn:E; [|lia].
    apply togglePlay_grows; congruence.
  - destruct (onClose_fields p) as (_ & _ & _ & _ & _ & _ & _ & -> & _).
    rewrite stopAudio_nodes.
    destruct (sourceNodeRef p); [rewrite length_alter|]; lia.
Qed.

(** *** [updateProgress] and the frame callbacks *)

Lemma tidy_updateProgress session env now p :
  tidy p → tidy (updateProgress session env now p).
Proof.
  intros Ht. unfold updateProgress.
  destruct (audioContextRef p); [|done].
  destruct (isPlaying env); simpl; [|done].
  destruct (Qle_bool _ _).
  - eapply tidy_ext; [| | |apply tidy_stopAudio, (tidy_ext p); [..|exact Ht]];
      try done.
  - by apply (tidy_ext p).
Qed.

Lemma updateProgress_length session env now p :
  length (nodes (updateProgress session env now p)) = length (nodes p).
Proof.
  unfold updateProgress.
  destruct (audioContextRef p); [|done].
  destruct (isPlaying env); cbn [negb]; [|done].
  destruct (Qle_bool _ _); [|done].
  change (nodes (with_hooks ?f ?q)) with (nodes q).
  rewrite stopAudio_nodes. simpl.
  destruct (sourceNodeRef p); [by rewrite length_alter|done].
Qed.

Lemma tidy_runFrames session ids now p :
  tidy p → tidy (runFrames session ids now p).
Proof.
  revert p. induction ids as [|id ids IH]; intros p Ht; [done|].
  simpl. destruct (List.find _ (frames p)) as [f|]; [|by apply IH].
  apply IH, tidy_updateProgress. by apply (tidy_ext p).
Qed.

Lemma runFrames_length session ids now p :
  length (nodes (runFrames session ids now p)) = length (nodes p).
Proof.
  revert p. induction ids as [|id ids IH]; intros p; [done|].
  simpl. destruct (List.find _ (frames p)) as [f|]; [|by apply IH].
  by rewrite IH, updateProgress_length.
Qed.

(** *** One event, then a commit *)

Lemma tidy_handle session now ev p :
  tidy p → settled p → tidy (handle session now ev p).
Proof.
  intros Ht Hs. destruct ev as [| |c| |i|]; simpl.
  - by apply tidy_togglePlay.
  - by apply tidy_stopAudio.
  - apply tidy_externalCommandEffect; [by apply (tidy_ext p)|done].
  - by apply tidy_runFrames.
  - destruct (nodes p !! i) as [s|] eqn:E; [|done].
    destruct Ht as [HA HB].
    assert (Hstale : isPlaying (onended s) = false).
    { apply HB, list_elem_of_lookup. eauto. }
    unfold onended_handler. rewrite Hstale. split.
    + intros j Hj. unfold isActive in Hj. simpl in Hj.
      destruct (decide (j = i)) as [->|Hne].
      * rewrite list_lookup_alter_eq, E in Hj. simpl in Hj.
        by rewrite active_endNode in Hj.
      * rewrite list_lookup_alter_ne in Hj by done. by apply HA.
    + intros s' Hs'. simpl in Hs'.
      apply elem_of_alter_nodes in Hs' as [Hs'|(s0 & Hs0 & ->)]; [by apply HB|].
      simpl. by apply HB.
  - by apply (tidy_ext p).
Qed.

Lemma handle_grows session now ev p :
  tidy p → settled p →
  (length (nodes p) < length (nodes (handle session now ev p)))%nat →
  ∀ i, isActive p i = false.
Proof.
  intros Ht Hs. destruct ev as [| |c| |i|]; cbn [handle].
  - by apply togglePlay_grows.
  - rewrite stopAudio_nodes.
    destruct (sourceNodeRef p); [rewrite length_alter|]; lia.
  - intros H i.
    apply (externalCommandEffect_grows session (hooks p) c now (commit p));
      [by apply (tidy_ext p)|done|done].
  - rewrite runFrames_length. lia.
  - destruct (nodes p !! i) as [s|]; [|lia].
    unfold onended_handler. destruct (isPlaying (onended s)); simpl;
      rewrite length_alter; lia.
  - simpl. lia.
Qed.

Lemma step_rendered session now ev p :
  tidy p ∧ settled p →
  tidy (commit (handle session now ev p)) ∧ settled (commit (handle session now ev p)).
Proof.
  intros [Ht Hs]. split; [|done].
  apply (tidy_ext (handle session now ev p)); try done.
  by apply tidy_handle.
Qed.

Lemma mount_nodes session c now : nodes (mount session c now) = [].
Proof.
  unfold mount, initAudio. simpl.
  destruct (decodeAudioData _ _ _ _); simpl;
    rewrite externalCommandEffect_cases; by destruct c as [[]|].
Qed.

Lemma mount_rendered session c now : tidy (mount session c now) ∧ settled (mount session c now).
Proof.
  split; [|done]. split.
  - intros i. unfold isActive. by rewrite mount_nodes.
  - intros s. rewrite mount_nodes. by intros ?%elem_of_nil.
Qed.

Lemma runRendered_invariant session evs p :
  tidy p ∧ settled p →
  tidy (runRendered session evs p) ∧ settled (runRendered session evs p).
Proof.
  revert p. induction evs as [|[now ev] evs IH]; intros p Hp; [done|].
  simpl. apply IH. by apply step_rendered.
Qed.

(** *** Counting the active handles *)

Lemma elem_of_activeHandles p i : i ∈ activeHandles p ↔ isActive p i = true.
Proof.
  unfold activeHandles. rewrite list_elem_of_filter, elem_of_seq.
  split; [by intros [? _]|]. intros H. split; [done|].
  unfold isActive in H. destruct (nodes p !! i) eqn:E; [|done].
  apply lookup_lt_Some in E. lia.
Qed.

Lemma NoDup_activeHandles p : NoDup (activeHandles p).
Proof. apply NoDup_filter, NoDup_seq. Qed.

Lemma at_most_one (l : list nat) (o : option nat) :
  NoDup l → (∀ i, i ∈ l → o = Some i) → (length l ≤ 1)%nat.
Proof.
  intros Hnd H. destruct l as [|a [|b l]]; simpl; [lia|lia|].
  exfalso. pose proof (H a ltac:(set_solver)) as Ha.
  pose proof (H b ltac:(set_solver)) as Hb.
  assert (a = b) by congruence. subst b.
  apply NoDup_cons in Hnd as [Hnd _]. apply Hnd. set_solver.
Qed.

Lemma activeHandles_nil p : (∀ i, isActive p i = false) → activeHandles p = [].
Proof.
  intros H. destruct (activeHandles p) as [|a l] eqn:E; [done|].
  assert (Ha : a ∈ activeHandles p) by (rewrite E; set_solver).
  apply elem_of_activeHandles in Ha. rewrite H in Ha. done.
Qed.

(** *** The closures handed to the browser are stale *)

(** [startAudio] is only ever called by a [togglePlay] whose render has
    a cleared playing cell, and it hands [updateProgress] and [onended] of
    that same render to the browser. *)
Lemma quiet_stopAudio p : quiet p → quiet (stopAudio p).
Proof.
  intros (HF & HN & HT & HS). repeat split.
  - intros f. rewrite stopAudio_frames. intros [_ Hf]%list_elem_of_filter.
    by apply HF.
  - intros s Hs. rewrite stopAudio_nodes in Hs.
    destruct (sourceNodeRef p) as [j|]; [|by apply HN].
    apply elem_of_alter_nodes in Hs as [Hs|(s0 & Hs0 & ->)]; [by apply HN|].
    simpl. by apply HN.
  - by rewrite stopAudio_hooks.
  - by rewrite stopAudio_hooks.
Qed.

Lemma quiet_togglePlay session env now p :
  quiet p → quiet (togglePlay session env now p).
Proof.
  intros Hq. unfold togglePlay. destruct (isPlaying env) eqn:Henv.
  - destruct (audioContextRef p); [|done]. by apply quiet_stopAudio.
  - destruct (startAudio_cases session env (pausedTimeRef p) now p)
      as [->|(ctx & buf & Hctx & Hdec)]; [done|].
    destruct (startAudio_started session env (pausedTimeRef p) now p ctx buf Hctx Hdec)
      as (Hn & _ & _ & Hh & _ & _ & _ & Hf).
    destruct Hq as (HF & HN & HT & HS). repeat split.
    + intros f. rewrite Hf. intros [Hin|Hin]%elem_of_app; [by apply HF|].
      apply list_elem_of_singleton in Hin. by subst f.
    + intros s. rewrite Hn. intros [Hin|Hin]%elem_of_app; [by apply HN|].
      apply list_elem_of_singleton in Hin. by subst s.
    + by rewrite Hh.
    + by rewrite Hh.
Qed.

Lemma quiet_externalCommandEffect session env c now p :
  quiet p → quiet (externalCommandEffect session env c now p).
Proof.
  intros Hq. rewrite externalCommandEffect_cases.
  destruct c as [[]|]; [| |by apply quiet_stopAudio|done];
    destruct (isPlaying env); try done; by apply quiet_togglePlay.
Qed.

Lemma updateProgress_stale session env now p :
  isPlaying env = false → updateProgress session env now p = p.
Proof.
  intros Henv. unfold updateProgress. rewrite Henv.
  by destruct (audioContextRef p).
Qed.

Lemma find_elem_of {A} (f : A → bool) (l : list A) x :
  List.find f l = Some x → x ∈ l.
Proof. intros H. apply list_elem_of_In. by apply find_some in H as [? _]. Qed.

Lemma quiet_runFrames session ids now p :
  quiet p → quiet (runFrames session ids now p).
Proof.
  revert p. induction ids as [|id ids IH]; intros p Hq; [done|].
  simpl. destruct (List.find _ (frames p)) as [f|] eqn:E; [|by apply IH].
  apply find_elem_of in E. destruct Hq as (HF & HN & HT & HS).
  rewrite updateProgress_stale by (by apply HF).
  apply IH. repeat split; try done.
  intros g [_ Hg]%list_elem_of_filter. by apply HF.
Qed.

Lemma quiet_handle session now ev p : quiet p → quiet (handle session now ev p).
Proof.
  intros Hq. destruct ev as [| |c| |i|]; cbn [handle].
  - by apply quiet_togglePlay.
  - by apply quiet_stopAudio.
  - by apply quiet_externalCommandEffect.
  - by apply quiet_runFrames.
  - destruct (nodes p !! i) as [s|] eqn:E; [|done].
    destruct Hq as (HF & HN & HT & HS).
    assert (Hstale : isPlaying (onended s) = false).
    { apply HN, list_elem_of_lookup. eauto. }
    unfold onended_handler. rewrite Hstale. repeat split; try done.
    intros s' Hs'. simpl in Hs'.
    apply elem_of_alter_nodes in Hs' as [Hs'|(s0 & Hs0 & ->)]; [by apply HN|].
    simpl. by apply HN.
  - done.
Qed.

Lemma quiet_mount session c now : quiet (mount session c now).
Proof.
  assert (Hc : quiet created).
  { repeat split; try done; by intros ? ?%elem_of_nil. }
  pose proof (quiet_externalCommandEffect session initialHooks c now created Hc)
    as (HF & HN & HT & HS).
  unfold mount, initAudio. simpl.
  destruct (decodeAudioData _ _ _ _); repeat split; done.
Qed.

Lemma run_quiet session evs p : quiet p → quiet (run session evs p).
Proof.
  revert p. induction evs as [|[now ev] evs IH]; intros p Hq; [done|].
  simpl. by apply IH, quiet_handle.
Qed.

(** *** The first play after mounting *)

Lemma first_play session buf t0 :
  decodeAudioData (audio session) (mkAudioContext 24000)
                  defaultSampleRate defaultNumChannels = ret buf →
  let pa := commit (handle session t0 TogglePlay (mount session None 0)) in
  nodes pa = [mkSourceNode buf 0 false false (rendered (mount session None 0))]
  ∧ sourceNodeRef pa = Some 0%nat
  ∧ startTimeRef pa = t0 - 0
  ∧ isPlaying (rendered pa) = true
  ∧ audioContextRef pa = Some (mkAudioContext 24000).
Proof.
  intros Hdec. unfold mount, initAudio. simpl. rewrite Hdec.
  unfold togglePlay, startAudio. simpl. by rewrite Hdec.
Qed.

(** *** Pause, then play *)

Lemma pause_then_play session p ctx buf t1 t2 :
  isPlaying (rendered p) = true →
  audioContextRef p = Some ctx →
  decodeAudioData (audio session) ctx defaultSampleRate defaultNumChannels = ret buf →
  let p1 := commit (handle session t1 TogglePlay p) in
  let p2 := handle session t2 TogglePlay p1 in
  pausedTimeRef p1 = t1 - startTimeRef p
  ∧ sourceNodeRef p1 = None
  ∧ isPlaying (hooks p1) = false
  ∧ (∀ i, sourceNodeRef p = Some i → nodes p1 = alter stopNode i (nodes p))
  ∧ (∀ i s, sourceNodeRef p = Some i → nodes p1 !! i = Some s → stopped s = true)
  ∧ nodes p2
    = nodes p1 ++ [mkSourceNode buf (t1 - startTimeRef p) false false (rendered p1)]
  ∧ sourceNodeRef p2 = Some (length (nodes p1))
  ∧ startTimeRef p2 = t2 - (t1 - startTimeRef p)
  ∧ isPlaying (hooks p2) = true.
Proof.
  intros Hplay Hctx Hdec p1 p2.
  assert (E1 : p1 = commit (stopAudio (set_pausedTimeRef (t1 - startTimeRef p) p))).
  { unfold p1. cbn [handle]. unfold togglePlay. by rewrite Hplay, Hctx. }
  set (q := set_pausedTimeRef (t1 - startTimeRef p) p) in E1.
  destruct (stopAudio_refs q) as (Hpaused & _ & _ & Hctx1 & _).
  assert (Hp1 : pausedTimeRef p1 = t1 - startTimeRef p).
  { rewrite E1. change (pausedTimeRef (commit ?x)) with (pausedTimeRef x).
    by rewrite Hpaused. }
  assert (Hh1 : isPlaying (hooks p1) = false).
  { rewrite E1. change (hooks (commit ?x)) with (hooks x).
    by rewrite stopAudio_hooks. }
  assert (Hr1 : isPlaying (rendered p1) = false).
  { rewrite E1. change (rendered (commit ?x)) with (hooks x).
    by rewrite stopAudio_hooks. }
  assert (Hc1 : audioContextRef p1 = Some ctx).
  { rewrite E1. change (audioContextRef (commit ?x)) with (audioContextRef x).
    by rewrite Hctx1. }
  split; [done|].
  split; [rewrite E1; apply stopAudio_sourceNodeRef|].
  split; [done|].
  assert (Hn1 : ∀ i, sourceNodeRef p = Some i → nodes p1 = alter stopNode i (nodes p)).
  { intros i Hi. rewrite E1.
    change (nodes (commit ?x)) with (nodes x). rewrite stopAudio_nodes.
    change (sourceNodeRef q) with (sourceNodeRef p). by rewrite Hi. }
  split; [done|].
  split.
  { intros i s Hi. rewrite (Hn1 i Hi), list_lookup_alter_eq.
    destruct (nodes p !! i); [|done]. by intros [= <-]. }
  assert (E2 : p2 = startAudio session (rendered p1) (pausedTimeRef p1) t2 p1).
  { unfold p2. cbn [handle]. unfold togglePlay. by rewrite Hr1. }
  destruct (startAudio_started session (rendered p1) (pausedTimeRef p1) t2 p1 ctx buf
              Hc1 Hdec) as (Hn & Hs & Hst & Hh & _).
  rewrite <- E2 in Hn, Hs, Hst, Hh. rewrite Hp1 in Hn, Hst.
  split; [done|]. split; [done|]. split; [done|]. by rewrite Hh.
Qed.

End PlayerFacts.

Module PlayerSpec.
Import Js WebAudio gemini JsFacts MeditationPlayer PlayerFacts.
Local Open Scope Q_scope.

(** The claim of C3 fails for calls made from one render: the second
    [togglePlay] still reads a cleared playing cell and starts a second
    node; both produce output and the ref names only the second. *)
Lemma togglePlay_twice_in_one_render :
  let p := run demo [(0, TogglePlay); (0, TogglePlay)] (mount demo None 0) in
  activeHandles p = [0%nat; 1%nat] ∧ sourceNodeRef p = Some 1%nat.
Proof. split; reflexivity. Qed.

(** C3, amended.  When React commits the render each event asks for
    before the next event is handled, then after every trace from a
    mounted player at most one node produces output; such a node is the
    one [sourceNodeRef] names; and an event starts a node only when no
    node produces output. *)
Theorem runRendered_single_handle (session : MeditationSession)
    (c : option Command) (now0 : Q) (evs : list (Q * Event)) :
  let p := runRendered session evs (mount session c now0) in
  (length (activeHandles p) ≤ 1)%nat
  ∧ (∀ i, i ∈ activeHandles p → sourceNodeRef p = Some i)
  ∧ (∀ now ev,
       (length (nodes p) < length (nodes (handle session now ev p)))%nat →
       activeHandles p = []).
Proof.
  intros p.
  destruct (runRendered_invariant session evs (mount session c now0)
              (mount_rendered session c now0)) as [Ht Hs].
  fold p in Ht, Hs.
  assert (Hone : ∀ i, i ∈ activeHandles p → sourceNodeRef p = Some i).
  { intros i Hi. apply elem_of_activeHandles in Hi.
    destruct Ht as [HA _]. by destruct (HA i Hi). }
  split; [|split; [done|]].
  - by apply (at_most_one _ (sourceNodeRef p)); [apply NoDup_activeHandles|].
  - intros now ev Hgrow. apply activeHandles_nil.
    by apply (handle_grows session now ev).
Qed.

(** C4.  In a playing state, [togglePlay] stores the clock reading
    minus [startTimeRef] in [pausedTimeRef], stops the node the ref names
    and clears the ref; the next [togglePlay] starts a fresh node at
    exactly that offset and sets [startTimeRef] to the new clock reading
    minus the offset. *)
Theorem togglePlay_pause_resume (session : MeditationSession) (p : Player)
    (ctx : AudioContext) (buf : AudioBuffer) (t1 t2 : Q) :
  isPlaying (rendered p) = true →
  audioContextRef p = Some ctx →
  decodeAudioData (audio session) ctx defaultSampleRate defaultNumChannels = ret buf →
  let p1 := commit (handle session t1 TogglePlay p) in
  let p2 := handle session t2 TogglePlay p1 in
  pausedTimeRef p1 = t1 - startTimeRef p
  ∧ sourceNodeRef p1 = None
  ∧ isPlaying (hooks p1) = false
  ∧ (∀ i, sourceNodeRef p = Some i → nodes p1 = alter stopNode i (nodes p))
  ∧ (∀ i s, sourceNodeRef p = Some i → nodes p1 !! i = Some s → stopped s = true)
  ∧ nodes p2
    = nodes p1 ++ [mkSourceNode buf (t1 - startTimeRef p) false false (rendered p1)]
  ∧ sourceNodeRef p2 = Some (length (nodes p1))
  ∧ startTimeRef p2 = t2 - (t1 - startTimeRef p)
  ∧ isPlaying (hooks p2) = true.
Proof. exact (pause_then_play session p ctx buf t1 t2). Qed.

Lemma togglePlay_pause_resume_witness :
  let p := runRendered demo [(2, TogglePlay)] (mount demo None 0) in
  let p1 := commit (handle demo 7 TogglePlay p) in
  isPlaying (rendered p) = true
  ∧ audioContextRef p = Some (mkAudioContext 24000)
  ∧ pausedTimeRef p1 = 7 - startTimeRef p
  ∧ sourceNodeRef p1 = None.
Proof.
  intros p p1.
  assert (H1 : isPlaying (rendered p) = true) by reflexivity.
  assert (H2 : audioContextRef p = Some (mkAudioContext 24000)) by reflexivity.
  destruct (togglePlay_pause_resume demo p (mkAudioContext 24000)
              (mkAudioBuffer 1 2 24000
                 [[Num (inject_Z 1 / 32768); Num (inject_Z 32767 / 32768)]])
              7 9 H1 H2 eq_refl) as (A & B & _).
  split; [exact H1|]. split; [exact H2|]. split; [exact A|exact B].
Defined.

(** The scenario of C4: play from 0 at clock [t0], pause at [t1], play
    again at [t2].  The second node starts at offset [t1 - t0]. *)
Lemma play_pause_play (session : MeditationSession) (buf : AudioBuffer)
    (t0 t1 t2 : Q) :
  decodeAudioData (audio session) (mkAudioContext 24000)
                  defaultSampleRate defaultNumChannels = ret buf →
  let p := runRendered session [(t0, TogglePlay); (t1, TogglePlay); (t2, TogglePlay)]
                       (mount session None 0) in
  ∃ s0 s1, nodes p = [s0; s1]
    ∧ offset s0 == 0 ∧ stopped s0 = true
    ∧ offset s1 == t1 - t0 ∧ stopped s1 = false
    ∧ sourceNodeRef p = Some 1%nat.
Proof.
  intros Hdec p.
  destruct (first_play session buf t0 Hdec) as (Hn & Hs & Hst & Hr & Hc).
  unfold p, runRendered. cbn [foldl fst snd].
  remember (commit (handle session t0 TogglePlay (mount session None 0))) as pa.
  destruct (pause_then_play session pa (mkAudioContext 24000) buf t1 t2 Hr Hc Hdec)
    as (_ & _ & _ & Hn1 & _ & Hn2 & Hs2 & _).
  rewrite (Hn1 0%nat Hs), Hn in Hn2, Hs2.
  change (nodes (commit ?x)) with (nodes x).
  change (sourceNodeRef (commit ?x)) with (sourceNodeRef x).
  rewrite Hn2, Hs2. eexists _, _. split; [reflexivity|]. simpl.
  repeat split; try done. rewrite Hst. ring.
Qed.

(** The claim of C5 fails: after play at clock 0 and pause at clock 5,
    [stopAudio] leaves the paused-at position at 5, and the next play
    starts its node at offset 5. *)
Lemma stopAudio_keeps_position :
  let p := runRendered demo [(0, TogglePlay); (5, TogglePlay)] (mount demo None 0) in
  let p' := commit (handle demo 6 Stop p) in
  pausedTimeRef p' == 5 ∧ ¬ pausedTimeRef p' == 0
  ∧ offset <$> nodes (handle demo 7 TogglePlay p') !! 1%nat = Some (5 - (0 - 0)).
Proof. split; [reflexivity|]. split; [discriminate|reflexivity]. Qed.

(** The frame request made by [startAudio] is not recorded in
    [animationFrameRef], so [stopAudio] does not cancel it. *)
Lemma stopAudio_leaves_request :
  let p := runRendered demo [(0, TogglePlay)] (mount demo None 0) in
  animationFrameRef p = 0%nat ∧ map fst (frames (stopAudio p)) = [1%nat].
Proof. split; reflexivity. Qed.

(** C5, amended.  In every state a committed trace reaches, [stopAudio]
    returns a state in which no node produces output, the ref is
    cleared, the node it named is stopped and no other node is touched,
    and the playing cell is cleared.  The position is not reset:
    [pausedTimeRef] and [startTimeRef] keep their values, and the play
    that follows the stop starts its node at the offset [pausedTimeRef]
    held before the stop, with [startTimeRef] set accordingly. *)
Theorem stopAudio_effect (session : MeditationSession)
    (c : option Command) (now0 : Q) (evs : list (Q * Event)) :
  let p := runRendered session evs (mount session c now0) in
  let p' := stopAudio p in
  activeHandles p' = []
  ∧ sourceNodeRef p' = None
  ∧ nodes p' = match sourceNodeRef p with
               | Some i => alter stopNode i (nodes p)
               | None => nodes p
               end
  ∧ isPlaying (hooks p') = false
  ∧ pausedTimeRef p' = pausedTimeRef p
  ∧ startTimeRef p' = startTimeRef p
  ∧ ∀ ctx buf now,
      audioContextRef p = Some ctx →
      decodeAudioData (audio session) ctx defaultSampleRate defaultNumChannels
        = ret buf →
      let p2 := handle session now TogglePlay (commit p') in
      nodes p2
        = nodes p' ++ [mkSourceNode buf (pausedTimeRef p) false false (hooks p')]
      ∧ sourceNodeRef p2 = Some (length (nodes p))
      ∧ startTimeRef p2 = now - pausedTimeRef p
      ∧ isPlaying (hooks p2) = true.
Proof.
  intros p p'.
  destruct (runRendered_invariant session evs (mount session c now0)
              (mount_rendered session c now0)) as [Ht _].
  fold p in Ht.
  destruct (stopAudio_refs p) as (Hp & Hst & _ & Hctx' & _).
  split; [by apply activeHandles_nil, stopAudio_silent|].
  split; [apply stopAudio_sourceNodeRef|].
  split; [apply stopAudio_nodes|].
  split; [unfold p'; by rewrite stopAudio_hooks|].
  split; [done|]. split; [done|].
  intros ctx buf now Hctx Hdec p2.
  assert (Hplay : isPlaying (rendered (commit p')) = false).
  { change (rendered (commit p')) with (hooks p').
    unfold p'. by rewrite stopAudio_hooks. }
  assert (Hc2 : audioContextRef (commit p') = Some ctx).
  { change (audioContextRef (commit p')) with (audioContextRef p').
    unfold p'. by rewrite Hctx'. }
  unfold p2. cbn [handle]. unfold togglePlay. rewrite Hplay.
  destruct (startAudio_started session (rendered (commit p'))
              (pausedTimeRef (commit p')) now (commit p') ctx buf Hc2 Hdec)
    as (Hn & Hs & Hstart & Hh & _).
  change (pausedTimeRef (commit p')) with (pausedTimeRef p') in *.
  change (nodes (commit p')) with (nodes p') in *.
  change (rendered (commit p')) with (hooks p') in *.
  change (hooks (commit p')) with (hooks p') in *.
  fold p' in Hp. rewrite Hp in *.
  split; [exact Hn|]. split.
  { rewrite Hs. f_equal. unfold p'. rewrite stopAudio_nodes.
    destruct (sourceNodeRef p); [apply length_alter|done]. }
  split; [exact Hstart|]. by rewrite Hh.
Qed.

Lemma stopAudio_effect_witness :
  let p := runRendered demo [(0, TogglePlay); (5, TogglePlay); (6, TogglePlay)]
             (mount demo None 0) in
  let p2 := handle demo 9 TogglePlay (commit (stopAudio p)) in
  isPlaying (hooks p) = true
  ∧ activeHandles (stopAudio p) = []
  ∧ offset <$> nodes p2 !! 2%nat = Some (pausedTimeRef p)
  ∧ pausedTimeRef p == 5.
Proof.
  intros p p2.
  destruct (stopAudio_effect demo None 0
              [(0, TogglePlay); (5, TogglePlay); (6, TogglePlay)])
    as (A & _ & _ & _ & _ & _ & R).
  destruct (R (mkAudioContext 24000)
              (mkAudioBuffer 1 2 24000
                 [[Num (inject_Z 1 / 32768); Num (inject_Z 32767 / 32768)]])
              9 eq_refl eq_refl) as (N & _).
  split; [reflexivity|]. split; [exact A|].
  split; [|reflexivity].
  unfold p2. etrans; [exact (f_equal (fun ns => offset <$> ns !! 2%nat) N)|].
  reflexivity.
Defined.

(** X11.  In every trace, committed or not, the callbacks the browser holds
    belong to renders with a cleared playing cell: [updateProgress]
    returns at its first test, and the displayed time and caption never
    leave their initial values. *)
Lemma updateProgress_never_advances (session : MeditationSession)
    (c : option Command) (now0 : Q) (evs : list (Q * Event)) :
  let p := run session evs (mount session c now0) in
  (∀ f, f ∈ frames p → ∀ now, updateProgress session f.2 now p = p)
  ∧ currentTime (hooks p) = 0
  ∧ currentSubtitle (hooks p) = "".
Proof.
  intros p.
  destruct (run_quiet session evs _ (quiet_mount session c now0))
    as (HF & _ & HT & HS).
  split; [|done]. intros f Hf now. apply updateProgress_stale. by apply HF.
Qed.

(** The selection of lines 103 and 104: the caption at [elapsed] is the
    text of the first segment, in list order, with
    [startSecond <= elapsed <= endSecond]; it is the empty string when no
    segment covers [elapsed]. *)
Lemma subtitleAt_first_match (elapsed : Q) (segs : list Segment) :
  (∃ pre s post, segs = pre ++ s :: post
     ∧ Forall (fun s' => ¬ covers elapsed s') pre
     ∧ covers elapsed s
     ∧ subtitleAt elapsed segs = text s)
  ∨ (Forall (fun s' => ¬ covers elapsed s') segs
     ∧ subtitleAt elapsed segs = "").
Proof.
  assert (Hno : ∀ l, Forall (fun y => inSegment elapsed y = false) l →
                     Forall (fun s' => ¬ covers elapsed s') l).
  { intros l Hl. eapply Forall_impl; [exact Hl|]. intros s' Hs' Hc.
    apply inSegment_covers in Hc. simpl in Hs'. congruence. }
  unfold subtitleAt.
  destruct (find_first_match (inSegment elapsed) segs)
    as [(pre & s & post & -> & Hpre & Hs & ->)|[Hall ->]].
  - left. exists pre, s, post. repeat split; try done.
    + by apply Hno.
    + by apply inSegment_covers.
    + by apply inSegment_covers.
  - right. split; [by apply Hno|done].
Qed.

(** When a callback of a playing render runs, this caption is what it
    stores in the subtitle cell. *)
Lemma updateProgress_subtitle session env now p ctx :
  audioContextRef p = Some ctx → isPlaying env = true →
  currentSubtitle (hooks (updateProgress session env now p))
  = subtitleAt (now - startTimeRef p) (segments session).
Proof.
  intros Hctx Henv. unfold updateProgress. rewrite Hctx, Henv. cbn [negb].
  destruct (Qle_bool _ _); [|done].
  change (hooks (with_hooks ?f ?q)) with (f (hooks q)).
  by rewrite stopAudio_hooks.
Qed.

(** The scenario of the specification. *)
Example subtitle_scenario :
  subtitleAt 5 (segments demo) = "intro"
  ∧ subtitleAt 175 (segments demo) = "close"
  ∧ subtitleAt 200 (segments demo) = "".
Proof. repeat split. Qed.

(** C8.  The body of [updateProgress] stores in the subtitle cell the
    text of the first segment that covers the elapsed time, or the empty
    string when there is none; but it runs only in a callback of a render
    whose playing cell is set, and on the player there is no such
    callback: the one [startAudio] requests belongs to the render that
    started the audio, and returns at line 98.  In every trace the
    caption stays empty.  With the session of the specification, played
    from clock 0, the frame at clock 5 leaves the caption empty where
    the first segment that covers 5 is "intro". *)
Theorem updateProgress_caption_never_set (session : MeditationSession)
    (c : option Command) (now0 : Q) (evs : list (Q * Event)) :
  let p := run session evs (mount session c now0) in
  (∀ env now q ctx, audioContextRef q = Some ctx → isPlaying env = true →
     currentSubtitle (hooks (updateProgress session env now q))
     = subtitleAt (now - startTimeRef q) (segments session)
     ∧ ((∃ pre s post, segments session = pre ++ s :: post
           ∧ Forall (fun s' => ¬ covers (now - startTimeRef q) s') pre
           ∧ covers (now - startTimeRef q) s
           ∧ subtitleAt (now - startTimeRef q) (segments session) = text s)
        ∨ (Forall (fun s' => ¬ covers (now - startTimeRef q) s') (segments session)
           ∧ subtitleAt (now - startTimeRef q) (segments session) = "")))
  ∧ (∀ f now, f ∈ frames p →
       isPlaying f.2 = false
       ∧ currentSubtitle (hooks (updateProgress session f.2 now p)) = "")
  ∧ currentSubtitle (hooks p) = ""
  ∧ (let q := run demo [(0, TogglePlay); (0, Commit); (5, AnimationFrame);
                        (5, Commit)] (mount demo None 0) in
     isPlaying (hooks q) = true
     ∧ activeHandles q = [0%nat]
     ∧ 5 - startTimeRef q == 5
     ∧ subtitleAt (5 - startTimeRef q) (segments demo) = "intro"
     ∧ currentSubtitle (hooks q) = "").
Proof.
  intros p.
  destruct (run_quiet session evs _ (quiet_mount session c now0))
    as (HF & _ & _ & HS).
  fold p in HF, HS.
  split.
  { intros env now q ctx Hctx Henv.
    split; [by apply (updateProgress_subtitle session env now q ctx)|].
    apply subtitleAt_first_match. }
  split.
  { intros f now Hf. split; [by apply HF|].
    rewrite updateProgress_stale; [done|by apply HF]. }
  split; [done|].
  repeat split; reflexivity.
Qed.

End PlayerSpec.

(** ** The voice intent *)

Module AppSpec.
Import App.

(** A name that is neither a key of the map nor a member of
    [Object.prototype] reads as [undefined]. *)
Lemma get_unknown {A} (obj : gmap string A) key :
  obj !! key = None → key ∉ ObjectPrototype → get obj key = Undefined.
Proof.
  intros Hk Hp. unfold get. rewrite Hk.
  by rewrite bool_decide_eq_false_2.
Qed.

(** Such a theme is dropped: the theme cell keeps its value. *)
Lemma applyIntent_unknown_theme intent st :
  ThemeMap !! key_of (theme_field intent) = None →
  key_of (theme_field intent) ∉ ObjectPrototype →
  theme (applyIntent intent st) = theme st.
Proof.
  intros Hk Hp. unfold applyIntent. rewrite (get_unknown _ _ Hk Hp).
  rewrite andb_false_r.
  destruct (field_truthy (voice_field intent) && _);
    repeat case_bool_decide; try done;
    by destruct (playbackCommand _).
Qed.

Lemma applyIntent_unknown_voice intent st :
  VoiceMap !! key_of (voice_field intent) = None →
  key_of (voice_field intent) ∉ ObjectPrototype →
  voice (applyIntent intent st) = voice st.
Proof.
  intros Hk Hp. unfold applyIntent. rewrite (get_unknown _ _ Hk Hp).
  rewrite andb_false_r.
  destruct (field_truthy (theme_field intent) && _);
    repeat case_bool_decide; try done;
    by destruct (playbackCommand _).
Qed.

(** A playback action is stored as the command, whatever the theme and
    voice fields hold. *)
Lemma applyIntent_playback intent st c :
  playbackCommand (action_field intent) = Some c →
  externalPlaybackCommand (applyIntent intent st) = Some c.
Proof.
  intros Hc. unfold applyIntent.
  assert (Hi : action_field intent ≠ Some "generate_image").
  { intros E. rewrite E in Hc. done. }
  assert (Hv : action_field intent ≠ Some "generate_video").
  { intros E. rewrite E in Hc. done. }
  rewrite !bool_decide_eq_false_2 by done. by rewrite Hc.
Qed.

(** The scenario of the specification: ["Atlantis"] is dropped and the
    play command is emitted. *)
Example applyIntent_Atlantis :
  applyIntent (mkIntent (Some "Atlantis") None (Some "play")) initial
  = mkState (Own ZEN) (Own ZEPHYR) (Some MeditationPlayer.play) [].
Proof. reflexivity. Qed.

(** C9, at the failing input.  ["__proto__"] is none of the five theme
    names, yet [ThemeMap["__proto__"]] is the prototype object, which is
    truthy: the handler passes it to [setTheme] and the theme cell no
    longer holds its previous value.  The play command is emitted. *)
Theorem applyIntent_inherited_theme :
  let intent := mkIntent (Some "__proto__") None (Some "play") in
  ThemeMap !! "__proto__" = None
  ∧ theme (applyIntent intent initial) = Inherited "__proto__"
  ∧ theme (applyIntent intent initial) ≠ theme initial
  ∧ externalPlaybackCommand (applyIntent intent initial)
    = Some MeditationPlayer.play.
Proof. repeat split; done. Qed.

End AppSpec.

(* ===================================================================== *)
(** * Further properties *)
(* ===================================================================== *)

(** ** The live session over arbitrary messages *)

Module LiveSessionMore.
Import Js WebAudio gemini JsFacts geminiFacts LiveSession LiveSessionFacts.
Local Open Scope Q_scope.

(** A chunk that decodes with the defaults is a mono buffer at 24000 Hz
    with at least one frame: it lasts a positive time. *)
Lemma decoded_duration_pos bytes ctx buf :
  decodeAudioData bytes ctx defaultSampleRate defaultNumChannels = ret buf →
  0 < duration buf.
Proof.
  intros Hdec.
  destruct (Nat.even (length bytes)) eqn:Heven.
  - destruct (Int16Array_even bytes Heven) as (elems & E & L).
    destruct (decide (length elems = 0%nat)) as [Hz|Hnz].
    + destruct (decodeAudioData_throws bytes ctx defaultSampleRate defaultNumChannels)
        as [_ Hshort].
      rewrite Hshort in Hdec; [done|done|]. right; left.
      rewrite L, Hz. unfold defaultNumChannels. simpl. lia.
    + destruct (supports_defaults ctx) as [HC HR].
      destruct (decodeAudioData_ok bytes elems ctx defaultSampleRate defaultNumChannels
                  E HC HR)
        as (buf' & D & _ & Hlen & Hsr & _); [unfold defaultNumChannels; lia|].
      rewrite D in Hdec. injection Hdec as <-.
      unfold duration. rewrite Hlen, Hsr. unfold defaultNumChannels, defaultSampleRate.
      rewrite Nat.div_1_r.
      unfold Qlt, Qdiv, Qmult, Qinv, inject_Z. simpl. lia.
  - destruct (decodeAudioData_throws bytes ctx defaultSampleRate defaultNumChannels)
      as [Hodd _].
    by rewrite Hodd in Hdec.
Qed.

(** What one message does, case by case. *)
Lemma deliver_cases st m :
  (deliver st m = st ∨ deliver st m = interrupt st)
  ∨ ∃ buf, 0 < duration buf
      ∧ (deliver st m = schedule m.1 buf st
         ∨ deliver st m = interrupt (schedule m.1 buf st)).
Proof.
  unfold deliver, onmessage.
  destruct (data m.2) as [bytes|]; [destruct (audioContextRef st) as [ctx|]|].
  - destruct (decodeAudioData bytes ctx _ _) as [e|buf] eqn:Hdec; [by left; left|].
    right. exists buf. split; [by eapply decoded_duration_pos|].
    simpl. destruct (interrupted m.2); [by right|by left].
  - simpl. left. destruct (interrupted m.2); [by right|by left].
  - simpl. left. destruct (interrupted m.2); [by right|by left].
Qed.

(** Every message keeps the invariant [queued]. *)
Lemma deliver_invariant st m :
  queued st → queued (deliver st m).
Proof.
  assert (Hint : ∀ st, (∀ i, i ∈ sourcesRef st → (i < length (nodes st))%nat) →
                       (∀ i s, nodes st !! i = Some s → stopped s = false →
                               i ∈ sourcesRef st) →
                       queued (interrupt st)).
  { clear. intros st Hv Hin. split; [|split].
    - intros i. simpl. by intros ?%elem_of_empty.
    - intros i s Hi Hs. simpl in Hi. exfalso.
      destruct (decide (i ∈ elements (sourcesRef st))) as [Hmem|Hmem].
      + rewrite (stop_all_in _ _ _ _ Hmem Hi) in Hs. done.
      + rewrite stop_all_notin in Hi by done.
        apply Hmem, elem_of_elements. by eapply Hin.
    - intros i j si sj Hij Hi Hsi Hj Hsj. simpl in Hi. exfalso.
      destruct (decide (i ∈ elements (sourcesRef st))) as [Hmem|Hmem].
      + rewrite (stop_all_in _ _ _ _ Hmem Hi) in Hsi. done.
      + rewrite stop_all_notin in Hi by done.
        apply Hmem, elem_of_elements. by eapply Hin. }
  assert (Hsch : ∀ st now buf, 0 < duration buf → queued st →
                               queued (schedule now buf st)).
  { clear. intros st now buf Hd (Hv & Hq & Ho).
    pose proof (Math_max_ge_l (nextStartTimeRef st) now) as Hmax.
    split; [|split].
    - intros i. simpl. rewrite length_app. simpl.
      intros [->%elem_of_singleton|Hi]%elem_of_union; [lia|].
      specialize (Hv i Hi). lia.
    - intros i s Hi Hs. simpl in Hi |- *.
      destruct (decide (i < length (nodes st))%nat) as [Hlt|Hge].
      + rewrite lookup_app_l in Hi by done.
        destruct (Hq i s Hi Hs) as [Hin Hend].
        split; [apply elem_of_union; by right|]. lra.
      + destruct (decide (i = length (nodes st))) as [->|Hne].
        * rewrite list_lookup_middle in Hi by done. injection Hi as <-. simpl.
          split; [apply elem_of_union; left; by apply elem_of_singleton|]. lra.
        * rewrite lookup_ge_None_2 in Hi; [done|].
          rewrite length_app. simpl. lia.
    - intros i j si sj Hij Hi Hsi Hj Hsj. simpl in Hi, Hj.
      assert (Hjlt : (j < length (nodes st ++ [mkSourceNode buf
                         (Math_max (nextStartTimeRef st) now) false]))%nat)
        by (by eapply lookup_lt_Some).
      rewrite length_app in Hjlt. simpl in Hjlt.
      rewrite lookup_app_l in Hi by lia.
      destruct (decide (j < length (nodes st))%nat) as [Hlt|Hge].
      + rewrite lookup_app_l in Hj by done.
        exact (Ho i j si sj Hij Hi Hsi Hj Hsj).
      + assert (j = length (nodes st)) as -> by lia.
        rewrite list_lookup_middle in Hj by done. injection Hj as <-. simpl.
        destruct (Hq i si Hi Hsi) as [_ Hend]. lra. }
  intros Hq.
  destruct (deliver_cases st m) as [[->| ->]|(buf & Hd & [->| ->])].
  - done.
  - destruct Hq as (Hv & Hq & _). apply Hint; [done|]. intros i s Hi Hs.
    by destruct (Hq i s Hi Hs).
  - by apply Hsch.
  - destruct (Hsch st m.1 buf Hd Hq) as (Hv & Hq' & _).
    apply Hint; [done|]. intros i s Hi Hs. by destruct (Hq' i s Hi Hs).
Qed.

Lemma run_invariant ms st : queued st → queued (run ms st).
Proof.
  revert st. induction ms as [|m ms IH]; intros st Hq; [done|].
  apply (IH (deliver st m)). by apply deliver_invariant.
Qed.

Lemma queued_opened : queued opened.
Proof.
  split; [|split].
  - intros i. by intros ?%elem_of_empty.
  - intros i s Hi. done.
  - intros i j si sj _ Hi. done.
Qed.

(** X1.  Whatever the messages and their timing, two nodes of the session
    that were not stopped never overlap: the one scheduled first ends
    before, or when, the other starts. *)
Theorem scheduled_nodes_never_overlap (ms : list (Q * Message))
    (i j : nat) (si sj : SourceNode) :
  (i < j)%nat →
  nodes (run ms opened) !! i = Some si → stopped si = false →
  nodes (run ms opened) !! j = Some sj → stopped sj = false →
  startedAt si + duration (buffer si) <= startedAt sj.
Proof.
  destruct (run_invariant ms opened queued_opened) as (_ & _ & Ho).
  apply Ho.
Qed.

Lemma scheduled_nodes_never_overlap_witness :
  let pcm := ["001"; "000"; "255"; "127"]%byte in
  let ms := [(1 # 2, mkMessage (Some pcm) false);
             (0, mkMessage (Some ["001"]%byte) true);
             (3, mkMessage (Some pcm) false)] in
  ∃ si sj, nodes (run ms opened) !! 0%nat = Some si
    ∧ nodes (run ms opened) !! 1%nat = Some sj
    ∧ startedAt si + duration (buffer si) <= startedAt sj.
Proof.
  intros pcm ms. eexists _, _. split; [reflexivity|]. split; [reflexivity|].
  apply (scheduled_nodes_never_overlap ms 0 1); [lia|reflexivity..].
Defined.

(** X2.  A node that has not been stopped is always in [sourcesRef], and the
    set names existing nodes only; so once a message with [interrupted]
    has been handled, every node the session ever scheduled is stopped. *)
Theorem interruption_stops_every_node (ms : list (Q * Message)) (now : Q)
    (msg : Message) (st' : State) :
  interrupted msg = true →
  onmessage now msg (run ms opened) = ret st' →
  (∀ s, s ∈ nodes st' → stopped s = true)
  ∧ (length (nodes (run ms opened)) ≤ length (nodes st'))%nat
  ∧ sourcesRef st' = ∅.
Proof.
  intros Hi Hret.
  pose proof (deliver_invariant (run ms opened) (now, msg)
                (run_invariant ms opened queued_opened)) as (_ & Hq & _).
  assert (Hd : deliver (run ms opened) (now, msg) = st').
  { unfold deliver. simpl. by rewrite Hret. }
  rewrite Hd in Hq.
  assert (Hempty : sourcesRef st' = ∅).
  { revert Hret. unfold onmessage. rewrite Hi.
    destruct (data msg) as [bytes|];
      [destruct (audioContextRef (run ms opened)) as [ctx|]|];
      [destruct (decodeAudioData bytes ctx _ _); [done|]|..];
      simpl; by intros [= <-]. }
  split; [|split; [|done]].
  - intros s Hs. apply list_elem_of_lookup in Hs as [i Hs].
    destruct (stopped s) eqn:E; [done|].
    destruct (Hq i s Hs E) as [Hin _]. rewrite Hempty in Hin.
    by apply elem_of_empty in Hin.
  - revert Hret. unfold onmessage. rewrite Hi.
    destruct (data msg) as [bytes|];
      [destruct (audioContextRef (run ms opened)) as [ctx|]|];
      [destruct (decodeAudioData bytes ctx _ _); [done|]|..];
      simpl; intros [= <-]; simpl; rewrite stop_all_length;
      [rewrite length_app; lia|done..].
Qed.

Lemma interruption_stops_every_node_witness :
  let pcm := ["001"; "000"; "255"; "127"]%byte in
  let ms := [(0, mkMessage (Some pcm) false); (0, mkMessage (Some pcm) false)] in
  let msg := mkMessage (Some pcm) true in
  interrupted msg = true
  ∧ ∃ st', onmessage 0 msg (run ms opened) = ret st'
      ∧ length (nodes st') = 3%nat
      ∧ ∀ s, s ∈ nodes st' → stopped s = true.
Proof.
  intros pcm ms msg. split; [reflexivity|].
  eexists. split; [reflexivity|]. split; [reflexivity|].
  apply (interruption_stops_every_node ms 0 msg); reflexivity.
Defined.

(** X3.  Only an interruption moves the cursor back: a message without
    [interrupted] leaves it where it was or moves it forward. *)
Theorem cursor_never_decreases (st : State) (m : Q * Message) :
  interrupted m.2 = false →
  nextStartTimeRef st <= nextStartTimeRef (deliver st m).
Proof.
  intros Hi. unfold deliver, onmessage. rewrite Hi.
  destruct (data m.2) as [bytes|]; [destruct (audioContextRef st) as [ctx|]|];
    [|simpl; apply Qle_refl..].
  destruct (decodeAudioData bytes ctx _ _) as [e|buf] eqn:Hdec;
    [simpl; apply Qle_refl|].
  simpl. pose proof (decoded_duration_pos _ _ _ Hdec).
  pose proof (Math_max_ge_l (nextStartTimeRef st) m.1). lra.
Qed.

Lemma cursor_never_decreases_witness :
  let st := run [(0, mkMessage (Some ["001"; "000"; "255"; "127"]%byte) false)] opened in
  let m := (5, mkMessage (Some ["001"; "000"]%byte) false) in
  interrupted m.2 = false
  ∧ nextStartTimeRef st <= nextStartTimeRef (deliver st m).
Proof.
  intros st m. split; [reflexivity|].
  apply (cursor_never_decreases st m). reflexivity.
Defined.

(** X4.  A chunk that fails to decode takes the whole message with it: the
    handler throws at the [await], so an [interrupted] flag on the same
    message is not acted on and the session is left as it was. *)
Theorem undecodable_chunk_drops_message (st : State) (now : Q) (msg : Message)
    (ctx : AudioContext) (bytes : list byte) (e : exception) :
  audioContextRef st = Some ctx → data msg = Some bytes →
  decodeAudioData bytes ctx defaultSampleRate defaultNumChannels = throw e →
  onmessage now msg st = throw e ∧ deliver st (now, msg) = st.
Proof.
  intros Hctx Hd Hdec. unfold deliver, onmessage. simpl.
  by rewrite Hd, Hctx, Hdec.
Qed.

Lemma undecodable_chunk_drops_message_witness :
  let st := run [(0, mkMessage (Some ["001"; "000"; "255"; "127"]%byte) false)] opened in
  let msg := mkMessage (Some ["001"; "000"; "255"]%byte) true in
  interrupted msg = true
  ∧ onmessage 1 msg st = throw RangeError
  ∧ deliver st (1, msg) = st
  ∧ stopped <$> nodes st !! 0%nat = Some false.
Proof.
  intros st msg. split; [reflexivity|].
  destruct (undecodable_chunk_drops_message st 1 msg (mkAudioContext 24000)
              ["001"; "000"; "255"]%byte RangeError eq_refl eq_refl eq_refl) as [A B].
  split; [exact A|]. split; [exact B|reflexivity].
Defined.

End LiveSessionMore.

(** ** The player over arbitrary traces *)

Module PlayerMore.
Import Js WebAudio gemini JsFacts MeditationPlayer PlayerFacts.
Local Open Scope Q_scope.

(** [handle] on a player in which nothing was ever started. *)
Lemma silent_stopAudio p : silent p → silent (stopAudio p).
Proof.
  intros (Hn & Hf & Hp & Hd). split; [|split; [|split]].
  - rewrite stopAudio_nodes, Hn. by destruct (sourceNodeRef p).
  - by rewrite stopAudio_frames, Hf.
  - by rewrite stopAudio_hooks.
  - by rewrite stopAudio_hooks.
Qed.

Lemma silent_togglePlay session e env now p :
  (∀ ctx, decodeAudioData (audio session) ctx defaultSampleRate defaultNumChannels
          = throw e) →
  silent p → silent (togglePlay session env now p).
Proof.
  intros Hdec Hs. unfold togglePlay. destruct (isPlaying env).
  - destruct (audioContextRef p); [|done]. by apply silent_stopAudio.
  - unfold startAudio. destruct (audioContextRef p) as [ctx|]; [|done].
    by rewrite Hdec.
Qed.

Lemma silent_handle session e now ev p :
  (∀ ctx, decodeAudioData (audio session) ctx defaultSampleRate defaultNumChannels
          = throw e) →
  silent p → silent (handle session now ev p).
Proof.
  intros Hdec Hs.
  destruct ev as [| |c| |i|]; cbn [handle].
  - by apply (silent_togglePlay session e).
  - by apply silent_stopAudio.
  - rewrite externalCommandEffect_cases.
    assert (Hc : silent (commit p)) by done.
    destruct c as [[]|]; [| |by apply silent_stopAudio|done];
      destruct (isPlaying (rendered (commit p))); try done;
      by apply (silent_togglePlay session e).
  - pose proof Hs as (_ & Hf & _). rewrite Hf. exact Hs.
  - pose proof Hs as (Hn & _). rewrite Hn. exact Hs.
  - done.
Qed.

Lemma silent_mount session e c now :
  (∀ ctx, decodeAudioData (audio session) ctx defaultSampleRate defaultNumChannels
          = throw e) →
  silent (mount session c now).
Proof.
  intros Hdec. unfold mount, initAudio. rewrite Hdec.
  rewrite externalCommandEffect_cases. by destruct c as [[]|].
Qed.

(** X5.  When the session's audio does not decode (the empty audio that
    [generateSpeech] falls back to is one case), nothing the user or the
    browser does ever starts a node: the playing cell stays cleared and
    the duration stays 0. *)
Theorem undecodable_session_never_plays (session : MeditationSession)
    (e : exception) (c : option Command) (now0 : Q) (evs : list (Q * Event)) :
  (∀ ctx, decodeAudioData (audio session) ctx defaultSampleRate defaultNumChannels
          = throw e) →
  let p := run session evs (mount session c now0) in
  nodes p = [] ∧ isPlaying (hooks p) = false ∧ duration (hooks p) = 0.
Proof.
  intros Hdec p.
  assert (H : silent p).
  { unfold p. generalize (silent_mount session e c now0 Hdec).
    generalize (mount session c now0).
    induction evs as [|[now ev] evs IH]; intros q Hq; [done|].
    simpl. apply IH. by apply (silent_handle session e). }
  destruct H as (Hn & _ & Hp & Hd). done.
Qed.

Lemma undecodable_session_never_plays_witness :
  let session := mkSession [] [mkSegment "intro" 0 10] in
  let p := run session [(0, TogglePlay); (1, Commit); (2, TogglePlay);
                        (3, ExternalCommand (Some play)); (4, AnimationFrame)]
               (mount session None 0) in
  (∀ ctx, decodeAudioData (audio session) ctx defaultSampleRate defaultNumChannels
          = throw NotSupportedError)
  ∧ nodes p = [] ∧ isPlaying (hooks p) = false.
Proof.
  intros session p.
  assert (H : ∀ ctx, decodeAudioData (audio session) ctx defaultSampleRate
                       defaultNumChannels = throw NotSupportedError)
    by (intros ctx;
        apply (proj2 (geminiFacts.decodeAudioData_throws [] ctx _ _) eq_refl);
        right; left; unfold defaultNumChannels; simpl; lia).
  destruct (undecodable_session_never_plays session NotSupportedError None 0
              [(0, TogglePlay); (1, Commit); (2, TogglePlay);
               (3, ExternalCommand (Some play)); (4, AnimationFrame)] H)
    as (A & B & _).
  split; [exact H|]. split; [exact A|exact B].
Defined.

(** X6.  The effect on [externalCommand] is declared before the audio effect,
    so at mount it runs while [audioContextRef] is still empty: a play or
    pause command that is pending when the player mounts changes
    nothing.  A pending stop is another matter: it calls [onClose]. *)
Theorem mount_ignores_command (session : MeditationSession)
    (c : option Command) (now : Q) :
  c ≠ Some stop →
  mount session c now = mount session None now.
Proof.
  intros Hc. unfold mount. f_equal. f_equal.
  rewrite !externalCommandEffect_cases. by destruct c as [[]|].
Qed.

Lemma mount_ignores_command_witness :
  Some play ≠ Some stop
  ∧ mount demo (Some play) 3 = mount demo None 3
  ∧ nodes (mount demo (Some play) 3) = []
  ∧ closeRequests (mount demo (Some stop) 3) = 1%nat.
Proof.
  assert (H : Some play ≠ Some stop) by discriminate.
  split; [exact H|]. split; [exact (mount_ignores_command demo (Some play) 3 H)|].
  split; reflexivity.
Defined.

(** X7.  When its buffer ends, a node fires [ended]; the [onended] closure
    reads the playing cell of the render that started the node, which was
    cleared, so no trace ever has it change a state cell or a ref: the
    player goes on counting as playing until the user toggles it. *)
Theorem ended_is_never_noticed (session : MeditationSession)
    (c : option Command) (now0 : Q) (evs : list (Q * Event)) (now : Q) (i : nat) :
  let p := run session evs (mount session c now0) in
  let p' := handle session now (Ended i) p in
  hooks p' = hooks p
  ∧ sourceNodeRef p' = sourceNodeRef p
  ∧ pausedTimeRef p' = pausedTimeRef p
  ∧ startTimeRef p' = startTimeRef p.
Proof.
  intros p p'.
  destruct (run_quiet session evs _ (quiet_mount session c now0)) as (_ & HN & _).
  fold p in HN. unfold p'. cbn [handle].
  destruct (nodes p !! i) as [s|] eqn:E; [|done].
  assert (Hs : isPlaying (onended s) = false).
  { apply HN, list_elem_of_lookup. eauto. }
  unfold onended_handler. by rewrite Hs.
Qed.

(** X8.  Playing for a while adds the time played to the paused-at position:
    from a paused state, play at clock [t2] and pause at clock [t3] leave
    [pausedTimeRef] larger by [t3 - t2]. *)
Theorem pausedTime_accumulates (session : MeditationSession) (p : Player)
    (ctx : AudioContext) (buf : AudioBuffer) (t2 t3 : Q) :
  isPlaying (rendered p) = false →
  audioContextRef p = Some ctx →
  decodeAudioData (audio session) ctx defaultSampleRate defaultNumChannels = ret buf →
  let p1 := commit (handle session t2 TogglePlay p) in
  let p2 := commit (handle session t3 TogglePlay p1) in
  pausedTimeRef p2 == pausedTimeRef p + (t3 - t2)
  ∧ isPlaying (hooks p1) = true ∧ isPlaying (hooks p2) = false.
Proof.
  intros Hr Hctx Hdec p1 p2.
  destruct (startAudio_started session (rendered p) (pausedTimeRef p) t2 p ctx buf
              Hctx Hdec) as (_ & _ & Hst & Hh & _ & _ & Hc & _).
  assert (E1 : handle session t2 TogglePlay p
               = startAudio session (rendered p) (pausedTimeRef p) t2 p).
  { cbn [handle]. unfold togglePlay. by rewrite Hr. }
  assert (Hr1 : isPlaying (rendered p1) = true).
  { unfold p1. change (rendered (commit ?x)) with (hooks x). by rewrite E1, Hh. }
  assert (Hc1 : audioContextRef p1 = Some ctx).
  { unfold p1. change (audioContextRef (commit ?x)) with (audioContextRef x).
    by rewrite E1, Hc. }
  destruct (pause_then_play session p1 ctx buf t3 t3 Hr1 Hc1 Hdec)
    as (Hp & _ & Hh2 & _).
  split; [|split].
  - fold p2 in Hp. rewrite Hp. unfold p1.
    change (startTimeRef (commit ?x)) with (startTimeRef x).
    rewrite E1, Hst. ring.
  - unfold p1. change (hooks (commit ?x)) with (hooks x). by rewrite E1, Hh.
  - exact Hh2.
Qed.

Lemma pausedTime_accumulates_witness :
  let p := runRendered demo [(0, TogglePlay); (5, TogglePlay)] (mount demo None 0) in
  let p1 := commit (handle demo 20 TogglePlay p) in
  let p2 := commit (handle demo 23 TogglePlay p1) in
  isPlaying (rendered p) = false
  ∧ pausedTimeRef p == 5
  ∧ pausedTimeRef p2 == pausedTimeRef p + (23 - 20).
Proof.
  intros p p1 p2.
  assert (H1 : isPlaying (rendered p) = false) by reflexivity.
  destruct (pausedTime_accumulates demo p (mkAudioContext 24000)
              (mkAudioBuffer 1 2 24000
                 [[Num (inject_Z 1 / 32768); Num (inject_Z 32767 / 32768)]])
              20 23 H1 eq_refl eq_refl) as (A & _).
  split; [exact H1|]. split; [reflexivity|exact A].
Defined.

(** *** A node the ref has lost *)

Lemma unnamed_ext i v p q :
  nodes q = nodes p → sourceNodeRef q = sourceNodeRef p →
  unnamed i v p → unnamed i v q.
Proof. intros Hn Hs [H1 H2]. split; by rewrite ?Hn, ?Hs. Qed.

Lemma unnamed_stopAudio i v p : unnamed i v p → unnamed i v (stopAudio p).
Proof.
  intros [Hs Hv]. split; [by rewrite stopAudio_sourceNodeRef|].
  rewrite stopAudio_nodes. destruct (sourceNodeRef p) as [j|]; [|done].
  rewrite list_lookup_alter_ne; [done|congruence].
Qed.

Lemma unnamed_startAudio session env fromTime now i v p :
  unnamed i v p → unnamed i v (startAudio session env fromTime now p).
Proof.
  intros [Hs Hv].
  destruct (startAudio_cases session env fromTime now p)
    as [->|(ctx & buf & Hctx & Hdec)]; [done|].
  destruct (startAudio_started session env fromTime now p ctx buf Hctx Hdec)
    as (Hn & Hr & _).
  assert (Hi : (i < length (nodes p))%nat).
  { destruct (nodes p !! i) eqn:E; [by eapply lookup_lt_Some|done]. }
  split.
  - rewrite Hr. intros [= ?]. lia.
  - rewrite Hn, lookup_app_l by done. done.
Qed.

Lemma unnamed_togglePlay session env now i v p :
  unnamed i v p → unnamed i v (togglePlay session env now p).
Proof.
  intros H. unfold togglePlay. destruct (isPlaying env).
  - destruct (audioContextRef p); [|done].
    by apply unnamed_stopAudio, (unnamed_ext i v p).
  - by apply unnamed_startAudio.
Qed.

Lemma unnamed_updateProgress session env now i v p :
  unnamed i v p → unnamed i v (updateProgress session env now p).
Proof.
  intros H. unfold updateProgress.
  destruct (audioContextRef p); [|done].
  destruct (isPlaying env); cbn [negb]; [|done].
  destruct (Qle_bool _ _).
  - eapply unnamed_ext; [| |apply unnamed_stopAudio, (unnamed_ext i v p); [..|exact H]];
      done.
  - by apply (unnamed_ext i v p).
Qed.

Lemma unnamed_runFrames session ids now i v p :
  unnamed i v p → unnamed i v (runFrames session ids now p).
Proof.
  revert p. induction ids as [|id ids IH]; intros p H; [done|].
  simpl. destruct (List.find _ (frames p)) as [f|]; [|by apply IH].
  apply IH, unnamed_updateProgress. by apply (unnamed_ext i v p).
Qed.

Lemma unnamed_handle session now ev i v p :
  unnamed i v p → unnamed i v (handle session now ev p).
Proof.
  intros H. destruct ev as [| |c| |j|]; cbn [handle].
  - by apply unnamed_togglePlay.
  - by apply unnamed_stopAudio.
  - rewrite externalCommandEffect_cases.
    assert (Hc : unnamed i v (commit p)) by done.
    destruct c as [[]|]; [| |by apply unnamed_stopAudio|done];
      destruct (isPlaying (rendered (commit p))); try done;
      by apply unnamed_togglePlay.
  - by apply unnamed_runFrames.
  - destruct (nodes p !! j) as [s|] eqn:E; [|done].
    destruct H as [Hs Hv].
    unfold onended_handler.
    assert (Hk : stopped <$> alter endNode j (nodes p) !! i = Some v).
    { destruct (decide (i = j)) as [->|Hne].
      - rewrite list_lookup_alter_eq. rewrite E in Hv |- *. done.
      - by rewrite list_lookup_alter_ne. }
    destruct (isPlaying (onended s)); by split.
  - done.
Qed.

Lemma unnamed_run session evs i v p :
  unnamed i v p → unnamed i v (run session evs p).
Proof.
  revert p. induction evs as [|[now ev] evs IH]; intros p H; [done|].
  simpl. by apply IH, unnamed_handle.
Qed.

(** X9.  [stop] is only ever called on the node [sourceNodeRef] names.  A
    node that exists and is not the one named keeps its stopped flag
    through every trace: if it was producing output, only the end of its
    buffer silences it. *)
Theorem unnamed_node_is_never_stopped (session : MeditationSession) (p : Player)
    (i : nat) (s : SourceNode) (evs : list (Q * Event)) :
  nodes p !! i = Some s → sourceNodeRef p ≠ Some i →
  stopped <$> nodes (run session evs p) !! i = Some (stopped s)
  ∧ sourceNodeRef (run session evs p) ≠ Some i.
Proof.
  intros Hi Hs.
  assert (H : unnamed i (stopped s) p) by (split; [done|by rewrite Hi]).
  by destruct (unnamed_run session evs i (stopped s) p H).
Qed.

Lemma unnamed_node_is_never_stopped_witness :
  let p := run demo [(0, TogglePlay); (0, TogglePlay)] (mount demo None 0) in
  let q := run demo [(1, Commit); (2, TogglePlay); (3, Commit); (4, Stop)] p in
  sourceNodeRef p ≠ Some 0%nat
  ∧ stopped <$> nodes q !! 0%nat = Some false
  ∧ stopped <$> nodes q !! 1%nat = Some true.
Proof.
  intros p q.
  assert (H : sourceNodeRef p ≠ Some 0%nat) by discriminate.
  destruct (unnamed_node_is_never_stopped demo p 0
              (mkSourceNode (mkAudioBuffer 1 2 24000
                 [[Num (inject_Z 1 / 32768); Num (inject_Z 32767 / 32768)]])
                 0 false false (rendered (mount demo None 0)))
              [(1, Commit); (2, TogglePlay); (3, Commit); (4, Stop)] eq_refl H)
    as [A _].
  split; [exact H|]. split; [exact A|reflexivity].
Defined.

(** X10.  Calling [stopAudio] a second time changes nothing. *)
Theorem stopAudio_idempotent (p : Player) : stopAudio (stopAudio p) = stopAudio p.
Proof.
  assert (Hf : ∀ (l : list (nat * Hooks)) id,
             filter (fun f => f.1 ≠ id) (filter (fun f => f.1 ≠ id) l)
             = filter (fun f => f.1 ≠ id) l).
  { intros l id. induction l as [|a l IH]; [done|].
    rewrite (filter_cons _ a l). destruct (decide (a.1 ≠ id)) as [Ha|Ha].
    - rewrite filter_cons. rewrite decide_True by done. by rewrite IH.
    - exact IH. }
  destruct p as [h r ctx src st pt af ns fs lf].
  unfold stopAudio. destruct src as [j|]; simpl;
    unfold cancelAnimationFrame, with_hooks, set_frames; simpl; by rewrite Hf.
Qed.

End PlayerMore.

(** ** The intent handler and generation *)

Module AppMore.
Import App.

Lemma get_falsy_field {A} (obj : gmap string A) (f : option string) :
  obj !! "" = None → obj !! "undefined" = None →
  field_truthy f = false → get obj (key_of f) = Undefined.
Proof.
  intros He Hu Hf. destruct f as [s|]; simpl in *.
  - apply negb_false_iff, bool_decide_eq_true in Hf. subst s.
    unfold get. by rewrite He.
  - unfold get. by rewrite Hu.
Qed.

(** A value that is not a function is stored as it is. *)
Lemma store_value {A} (v : property A) (previous : cell A) :
  isFunction v = false → store v previous = Held v.
Proof. intros H. destruct v; try done. simpl in *. by rewrite H. Qed.

(** What ends up in a cell after the test
    [intent.f && Map[intent.f]] and the setter, for a value that is not a
    function: the value read when it is truthy, the old value
    otherwise. *)
Lemma cell_after {A} (obj : gmap string A) (f : option string) (old : cell A) :
  obj !! "" = None → obj !! "undefined" = None →
  isFunction (get obj (key_of f)) = false →
  (if field_truthy f && truthy (get obj (key_of f))
   then store (get obj (key_of f)) old else old)
  = (if truthy (get obj (key_of f)) then Held (get obj (key_of f)) else old).
Proof.
  intros He Hu Hfun. rewrite (store_value _ _ Hfun).
  destruct (field_truthy f) eqn:Hf; [done|].
  by rewrite (get_falsy_field obj f He Hu Hf).
Qed.

(** X12.  A generate action calls [handleGenerate] once, with what the two
    maps return for the intent's fields.  When neither is an inherited
    function, each argument is either truthy, and then it is the value
    the cell holds after the handler, or [undefined], and then the cell
    was left alone and [handleGenerate] falls back to the theme or voice
    of its render.  No playback command is emitted. *)
Theorem generate_uses_the_applied_values (intent : Intent) (st : State)
    (type : GenerateType) :
  action_field intent
  = Some (match type with image => "generate_image" | video => "generate_video" end) →
  let customTheme := get ThemeMap (key_of (theme_field intent)) in
  let customVoice := get VoiceMap (key_of (voice_field intent)) in
  isFunction customTheme = false → isFunction customVoice = false →
  let st' := applyIntent intent st in
  generateCalls st' = generateCalls st ++ [(type, customTheme, customVoice)]
  ∧ theme st' = (if truthy customTheme then Held customTheme else theme st)
  ∧ voice st' = (if truthy customVoice then Held customVoice else voice st)
  ∧ externalPlaybackCommand st' = externalPlaybackCommand st.
Proof.
  intros Ha customTheme customVoice Hft Hfv st'.
  unfold st', applyIntent. rewrite Ha.
  pose proof (cell_after ThemeMap (theme_field intent) (theme st)
                eq_refl eq_refl Hft) as Ht.
  pose proof (cell_after VoiceMap (voice_field intent) (voice st)
                eq_refl eq_refl Hfv) as Hv.
  fold customTheme in Ht |- *. fold customVoice in Hv |- *.
  destruct type; simpl;
    destruct (field_truthy (theme_field intent) && _) eqn:E1;
    destruct (field_truthy (voice_field intent) && _) eqn:E2;
    simpl; rewrite <- ?Ht, <- ?Hv; done.
Qed.

Lemma generate_uses_the_applied_values_witness :
  let intent := mkIntent (Some "Ocean") (Some "Nobody") (Some "generate_video") in
  action_field intent = Some "generate_video"
  ∧ isFunction (get ThemeMap (key_of (theme_field intent))) = false
  ∧ isFunction (get VoiceMap (key_of (voice_field intent))) = false
  ∧ applyIntent intent initial
    = mkState (Own OCEAN) (Own ZEPHYR) None [(video, Own OCEAN, Undefined)].
Proof.
  intros intent.
  assert (H : action_field intent = Some "generate_video") by reflexivity.
  destruct (generate_uses_the_applied_values intent initial video H eq_refl eq_refl)
    as (A & _).
  split; [exact H|]. split; [reflexivity|]. split; reflexivity.
Defined.

(** With an inherited function the two differ: [handleGenerate] is
    given the function, and the cell holds what the updater call
    leaves. *)
Example generate_with_inherited_function :
  let intent := mkIntent (Some "toString") None (Some "generate_image") in
  let st' := applyIntent intent initial in
  generateCalls st' = [(image, Inherited "toString", Undefined)]
  ∧ theme st' = Updated "toString" (Own ZEN).
Proof. split; reflexivity. Qed.

End AppMore.

(** ** Base64 and the typed-array views *)

Module CodecFacts.
Import Js WebAudio gemini JsFacts geminiFacts Codec.
Import Stdlib.Strings.Ascii.

(** Induction three bytes at a time, the way base64 groups them. *)
Lemma triples_ind {A} (P : list A → Prop) :
  P [] → (∀ a, P [a]) → (∀ a b, P [a; b]) →
  (∀ a b c rest, P rest → P (a :: b :: c :: rest)) →
  ∀ l, P l.
Proof.
  intros H0 H1 H2 H3 l.
  assert (H : P l ∧ (∀ a, P (a :: l)) ∧ ∀ a b, P (a :: b :: l));
    [|by destruct H].
  induction l as [|x l (IH0 & IH1 & IH2)]; repeat split; auto.
Qed.

Lemma split_join (m q r : nat) :
  (r < m)%nat → ((q * m + r) / m = q ∧ (q * m + r) mod m = r)%nat.
Proof.
  intros Hr. split.
  - symmetry. apply (Nat.div_unique _ m q r); lia.
  - symmetry. apply (Nat.mod_unique _ m q r); lia.
Qed.

(** Three bytes and their four 6-bit groups. *)
Lemma group_of_three (a b c : nat) :
  (a < 256 → b < 256 → c < 256 →
   let s0 := a / 4 in
   let s1 := (a mod 4) * 16 + b / 16 in
   let s2 := (b mod 16) * 4 + c / 64 in
   let s3 := c mod 64 in
   (s0 * 4 + s1 / 16 = a ∧ (s1 mod 16) * 16 + s2 / 4 = b ∧ (s2 mod 4) * 64 + s3 = c)
   ∧ (s0 < 64 ∧ s1 < 64 ∧ s2 < 64 ∧ s3 < 64))%nat.
Proof.
  intros Ha Hb Hc s0 s1 s2 s3.
  pose proof (Nat.div_mod_eq a 4). pose proof (Nat.mod_upper_bound a 4 ltac:(lia)).
  pose proof (Nat.div_mod_eq b 16). pose proof (Nat.mod_upper_bound b 16 ltac:(lia)).
  pose proof (Nat.div_mod_eq c 64). pose proof (Nat.mod_upper_bound c 64 ltac:(lia)).
  assert (b / 16 < 16)%nat by (apply Nat.Div0.div_lt_upper_bound; lia).
  assert (c / 64 < 4)%nat by (apply Nat.Div0.div_lt_upper_bound; lia).
  assert (a / 4 < 64)%nat by (apply Nat.Div0.div_lt_upper_bound; lia).
  destruct (split_join 16 (a mod 4) (b / 16)) as [E1 E2]; [lia|].
  destruct (split_join 4 (b mod 16) (c / 64)) as [E3 E4]; [lia|].
  subst s0 s1 s2 s3. rewrite E1, E2, E3, E4. repeat split; lia.
Qed.

Lemma octets_sextets (bytes : list nat) :
  Forall (fun b => b < 256)%nat bytes → octets (sextets bytes) = bytes.
Proof.
  induction bytes as [|a|a b|a b c rest IH] using triples_ind; intros Hb.
  - done.
  - apply Forall_cons in Hb as [Ha _].
    destruct (group_of_three a 0 0 Ha) as [(E & _) _]; [lia..|].
    change (0 / 16)%nat with 0%nat in E. rewrite Nat.add_0_r in E.
    cbn [sextets octets]. by rewrite E.
  - apply Forall_cons in Hb as [Ha Hb]. apply Forall_cons in Hb as [Hb _].
    destruct (group_of_three a b 0 Ha Hb) as [(E1 & E2 & _) _]; [lia|].
    change (0 / 64)%nat with 0%nat in E2. rewrite Nat.add_0_r in E2.
    cbn [sextets octets]. by rewrite E1, E2.
  - apply Forall_cons in Hb as [Ha Hb]. apply Forall_cons in Hb as [Hb Hc].
    apply Forall_cons in Hc as [Hc Hrest].
    destruct (group_of_three a b c Ha Hb Hc) as [(E1 & E2 & E3) _].
    cbn [sextets octets]. rewrite E1, E2, E3. by rewrite IH.
Qed.

Lemma sextets_bounded (bytes : list nat) :
  Forall (fun b => b < 256)%nat bytes → Forall (fun s => s < 64)%nat (sextets bytes).
Proof.
  induction bytes as [|a|a b|a b c rest IH] using triples_ind; intros Hb.
  - constructor.
  - apply Forall_cons in Hb as [Ha _].
    destruct (group_of_three a 0 0 Ha) as [_ (B0 & B1 & _)]; [lia..|].
    change (0 / 16)%nat with 0%nat in B1. rewrite Nat.add_0_r in B1.
    cbn [sextets]. repeat (apply Forall_cons; split; [assumption|]). constructor.
  - apply Forall_cons in Hb as [Ha Hb]. apply Forall_cons in Hb as [Hb _].
    destruct (group_of_three a b 0 Ha Hb) as [_ (B0 & B1 & B2 & _)]; [lia|].
    change (0 / 64)%nat with 0%nat in B2. rewrite Nat.add_0_r in B2.
    cbn [sextets]. repeat (apply Forall_cons; split; [assumption|]). constructor.
  - apply Forall_cons in Hb as [Ha Hb]. apply Forall_cons in Hb as [Hb Hc].
    apply Forall_cons in Hc as [Hc Hrest].
    destruct (group_of_three a b c Ha Hb Hc) as [_ (B0 & B1 & B2 & B3)].
    cbn [sextets]. repeat (apply Forall_cons; split; [assumption|]). by apply IH.
Qed.

(** The length of the encoding before padding, and the padding. *)
Lemma sextets_length (bytes : list nat) :
  (length (sextets bytes) + length (padding (length bytes))
   = 4 * ((length bytes + 2) / 3))%nat
  ∧ (length (sextets bytes) mod 4 ≠ 1)%nat
  ∧ (padding (length bytes) = [] ∨ (2 ≤ length (sextets bytes))%nat).
Proof.
  induction bytes as [|a|a b|a b c rest (IH1 & IH2 & IH3)] using triples_ind.
  - repeat split; [done|]. by left.
  - repeat split; [done|]. right. simpl. lia.
  - repeat split; [done|]. right. simpl. lia.
  - assert (Hp : padding (length (a :: b :: c :: rest)) = padding (length rest)).
    { unfold padding. simpl length.
      replace (S (S (S (length rest)))) with (length rest + 1 * 3)%nat by lia.
      by rewrite Nat.Div0.mod_add. }
    rewrite Hp. cbn [sextets]. simpl length.
    replace (S (S (S (length rest))) + 2)%nat with (length rest + 2 + 1 * 3)%nat by lia.
    rewrite Nat.div_add by lia.
    split; [lia|]. split.
    + replace (S (S (S (S (length (sextets rest))))))
        with (length (sextets rest) + 1 * 4)%nat by lia.
      by rewrite Nat.Div0.mod_add.
    + destruct IH3 as [->|?]; [by left|right; lia].
Qed.

(** The alphabet, character by character. *)
Lemma alphabet_char (n : nat) :
  (n < 64)%nat →
  sextet_of_char (char_of_sextet n) = Some n
  ∧ is_whitespace (char_of_sextet n) = false
  ∧ char_of_sextet n ≠ "="%char.
Proof.
  intros Hn.
  do 64 (destruct n as [|n]; [by repeat split|]). lia.
Qed.

Lemma mapM_alphabet (groups : list nat) :
  Forall (fun s => s < 64)%nat groups →
  mapM sextet_of_char (map char_of_sextet groups) = Some groups.
Proof.
  induction 1 as [|s groups Hs _ IH]; [done|].
  simpl. destruct (alphabet_char s Hs) as (-> & _). simpl.
  by rewrite IH.
Qed.

Lemma filter_all {A} (P : A → Prop) `{∀ x, Decision (P x)} (l : list A) :
  Forall P l → filter P l = l.
Proof.
  induction 1 as [|x l Hx _ IH]; [done|].
  rewrite filter_cons, decide_True by done. by rewrite IH.
Qed.

(** Removing the padding of an encoding gives back its characters. *)
Lemma strip_padding_encoding (bytes : list nat) :
  Forall (fun b => b < 256)%nat bytes →
  strip_padding (map char_of_sextet (sextets bytes) ++ padding (length bytes))
  = map char_of_sextet (sextets bytes).
Proof.
  intros Hb.
  destruct (sextets_length bytes) as (Hlen & _ & Hpad).
  pose proof (sextets_bounded bytes Hb) as Hs.
  set (body := map char_of_sextet (sextets bytes)) in *.
  assert (Hbody : Forall (fun c => c ≠ "="%char) body).
  { unfold body. apply Forall_fmap. eapply Forall_impl; [exact Hs|].
    intros s Hlt. simpl. by destruct (alphabet_char s Hlt) as (_ & _ & ?). }
  assert (Hrev : Forall (fun c => c ≠ "="%char) (rev body)).
  { by apply Forall_rev. }
  unfold strip_padding.
  assert (Hl : (length (body ++ padding (length bytes)) mod 4 = 0)%nat).
  { rewrite length_app. unfold body at 1. rewrite length_map, Hlen.
    rewrite Nat.mul_comm. apply Nat.Div0.mod_mul. }
  rewrite Hl. simpl Nat.eqb. cbn iota.
  rewrite rev_app_distr.
  assert (Hb3 : padding (length bytes) = [] ∨ (2 ≤ length body)%nat).
  { destruct Hpad as [?|?]; [by left|right]. unfold body. by rewrite length_map. }
  unfold padding in *. destruct (length bytes mod 3)%nat as [|[|[|k]]] eqn:Hm.
  - simpl. rewrite app_nil_r.
    destruct (rev body) as [|c r] eqn:E; [done|].
    apply Forall_cons in Hrev as [Hc _].
    destruct c as [[] [] [] [] [] [] [] []]; done.
  - simpl. by rewrite rev_involutive.
  - simpl. destruct (rev body) as [|c r] eqn:E.
    + destruct Hb3 as [?|Hge]; [done|].
      apply (f_equal (@length _)) in E. rewrite length_rev in E. simpl in E. lia.
    + apply Forall_cons in Hrev as [Hc _].
      destruct c as [[] [] [] [] [] [] [] []]; try done;
        by rewrite <- E, rev_involutive.
  - simpl. rewrite app_nil_r.
    destruct (rev body) as [|c r] eqn:E; [done|].
    apply Forall_cons in Hrev as [Hc _].
    destruct c as [[] [] [] [] [] [] [] []]; done.
Qed.

Lemma chars_of_codes (l : list ascii) :
  map ascii_of_nat (map nat_of_ascii l) = l.
Proof.
  induction l as [|c l IH]; [done|].
  simpl. by rewrite ascii_nat_embedding, IH.
Qed.

Lemma atob_btoa (binary : string) : atob (btoa binary) = Some binary.
Proof.
  unfold atob, btoa.
  set (codes := map nat_of_ascii (String.list_ascii_of_string binary)).
  assert (Hb : Forall (fun b => b < 256)%nat codes).
  { unfold codes. apply Forall_fmap, Forall_forall. intros c _. simpl.
    apply nat_ascii_bounded. }
  pose proof (sextets_bounded codes Hb) as Hs.
  rewrite String.list_ascii_of_string_of_list_ascii.
  rewrite filter_all.
  2:{ apply Forall_app. split.
      - apply Forall_fmap. eapply Forall_impl; [exact Hs|].
        intros s Hlt. simpl. by destruct (alphabet_char s Hlt) as (_ & ? & _).
      - unfold padding. destruct (length codes mod 3)%nat as [|[|[|k]]];
          by repeat constructor. }
  rewrite strip_padding_encoding by done.
  destruct (sextets_length codes) as (_ & Hne & _).
  rewrite length_map.
  destruct (Nat.eqb_spec (length (sextets codes) mod 4) 1) as [?|_]; [done|].
  rewrite mapM_alphabet by done. simpl.
  rewrite octets_sextets by done. f_equal.
  unfold codes. rewrite chars_of_codes.
  apply String.string_of_list_ascii_of_string.
Qed.

End CodecFacts.

Module CodecSpec.
Import Js WebAudio gemini JsFacts geminiFacts LiveSessionFacts Codec CodecFacts.

Lemma byte_of_Z_value k : 0 <= k < 256 → Z.of_N (Byte.to_N (byte_of_Z k)) = k.
Proof.
  intros Hk. unfold byte_of_Z.
  destruct (Byte.of_N (Z.to_N k)) as [b|] eqn:E.
  - simpl. rewrite (Byte.to_of_N _ E). lia.
  - apply Byte.of_N_None_iff in E. lia.
Qed.

(** The two bytes of an element, read back as an element. *)
Lemma int16_of_bytes_split z :
  int16_of_bytes (byte_of_Z ((z mod 65536) mod 256))
                 (byte_of_Z ((z mod 65536) / 256)) = wrap16 z.
Proof.
  unfold int16_of_bytes.
  pose proof (Z.mod_pos_bound z 65536 eq_refl) as Hu.
  pose proof (Z.mod_pos_bound (z mod 65536) 256 eq_refl) as Hlo.
  assert (Hhi : 0 <= (z mod 65536) / 256 < 256).
  { split; [apply Z.div_pos; lia|apply Z.div_lt_upper_bound; lia]. }
  rewrite !byte_of_Z_value by done.
  rewrite Z.add_comm, <- Z.div_mod by lia.
  unfold wrap16. by rewrite Z.mod_mod.
Qed.

Lemma Int16Array_Uint8Array l : Int16Array (Uint8Array l) = ret (map wrap16 l).
Proof.
  induction l as [|z l IH]; [done|].
  change (Uint8Array (z :: l))
    with (byte_of_Z ((z mod 65536) mod 256)
            :: byte_of_Z ((z mod 65536) / 256) :: Uint8Array l).
  cbn [Int16Array]. rewrite IH. simpl. by rewrite int16_of_bytes_split.
Qed.

Lemma Uint8Array_length l : length (Uint8Array l) = (2 * length l)%nat.
Proof.
  induction l as [|z l IH]; [done|].
  change (Uint8Array (z :: l))
    with (byte_of_Z ((z mod 65536) mod 256)
            :: byte_of_Z ((z mod 65536) / 256) :: Uint8Array l).
  simpl. rewrite IH. lia.
Qed.

(** Every element of a captured frame is a 16-bit value already. *)
Lemma onaudioprocess_int16 inputData :
  map wrap16 (LiveSession.onaudioprocess inputData)
  = LiveSession.onaudioprocess inputData.
Proof.
  apply list_eq. intros i. rewrite list_lookup_fmap.
  destruct (inputData !! i) as [x|] eqn:E.
  - rewrite (onaudioprocess_lookup _ _ _ E). simpl. f_equal.
    apply wrap16_small, wrap16_range.
  - apply lookup_ge_None in E.
    rewrite (proj2 (lookup_ge_None _ _)); [done|].
    by rewrite onaudioprocess_length.
Qed.

Lemma decodeBase64_realtimeInput inputData :
  decodeBase64 (realtimeInput inputData)
  = Some (Uint8Array (LiveSession.onaudioprocess inputData)).
Proof.
  unfold decodeBase64, realtimeInput, encodeBase64.
  rewrite atob_btoa. simpl.
  by rewrite String.list_byte_of_string_of_list_byte.
Qed.

(** Truncation moves a number by less than one. *)
Lemma truncate_near (q : Q) :
  (q - 1 < inject_Z (truncate q) ∧ inject_Z (truncate q) < q + 1)%Q.
Proof.
  destruct q as [n d]. unfold truncate. simpl.
  pose proof (Z.quot_rem' n (Z.pos d)) as Hn.
  pose proof (Z.rem_bound_abs n (Z.pos d) ltac:(lia)) as Hr.
  unfold Qlt, Qminus, Qplus, Qopp, inject_Z. simpl.
  split; nia.
Qed.

(** X13.  gemini.ts, lines 5 to 16.  What [encodeBase64] produces,
    [decodeBase64] accepts, and it returns the bytes that were encoded:
    whatever their number, the padding added is the padding removed. *)
Theorem decodeBase64_encodeBase64 (bytes : list byte) :
  decodeBase64 (encodeBase64 bytes) = Some bytes.
Proof.
  unfold decodeBase64, encodeBase64. rewrite atob_btoa. simpl.
  by rewrite String.list_byte_of_string_of_list_byte.
Qed.

(** X14.  LiveSession.tsx, lines 27 to 29.  The text sent for a captured frame
    is the base64 form of two bytes per sample, and those bytes, viewed
    as an [Int16Array] the way [decodeAudioData] views its input, are the
    samples of the frame: the value sent is 16-bit little-endian PCM. *)
Theorem realtimeInput_is_pcm16 (inputData : list Q) :
  ∃ bytes, decodeBase64 (realtimeInput inputData) = Some bytes
    ∧ length bytes = (2 * length inputData)%nat
    ∧ Int16Array bytes = ret (LiveSession.onaudioprocess inputData).
Proof.
  exists (Uint8Array (LiveSession.onaudioprocess inputData)).
  split; [apply decodeBase64_realtimeInput|]. split.
  - by rewrite Uint8Array_length, onaudioprocess_length.
  - by rewrite Int16Array_Uint8Array, onaudioprocess_int16.
Qed.

(** X15.  The sending path composed with the decoder of the receiving path.
    The text sent for a non-empty captured frame, given to [decodeBase64]
    and then to [decodeAudioData] with one channel and a sample rate the
    implementation accepts (the default is one), gives a buffer of as
    many frames as samples were captured; sample [i] is
    [ToInt16(x * 32768) / 32768], which for [-1 <= x < 1] differs from
    the captured [x] by less than 1/32768. *)
Theorem sent_frame_decodes (inputData : list Q) (ctx : AudioContext) (sr : Q) :
  inputData ≠ [] → supportsRate ctx sr = true →
  ∃ bytes buf cd,
    decodeBase64 (realtimeInput inputData) = Some bytes
    ∧ decodeAudioData bytes ctx sr 1 = ret buf
    ∧ bufferLength buf = length inputData
    ∧ channels buf !! 0%nat = Some cd
    ∧ ∀ i x, inputData !! i = Some x →
        cd !! i = Some (Num (inject_Z (ToInt16 (x * 32768)) / 32768))
        ∧ ((-1 <= x)%Q → (x < 1)%Q →
           (x - (1 # 32768) < inject_Z (ToInt16 (x * 32768)) / 32768)%Q
           ∧ (inject_Z (ToInt16 (x * 32768)) / 32768 < x + (1 # 32768))%Q).
Proof.
  intros Hne Hsr.
  set (frame := LiveSession.onaudioprocess inputData).
  assert (Hlen : length frame = length inputData)
    by apply onaudioprocess_length.
  assert (Hpos : (1 ≤ length frame)%nat).
  { rewrite Hlen. destruct inputData; [done|simpl; lia]. }
  assert (Hview : Int16Array (Uint8Array frame) = ret frame).
  { unfold frame. by rewrite Int16Array_Uint8Array, onaudioprocess_int16. }
  destruct (decodeAudioData_ok (Uint8Array frame) frame ctx sr 1 Hview
              (supportsChannels_required ctx 1 ltac:(lia)) Hsr Hpos)
    as (buf & D & _ & L & _ & _ & Hch).
  destruct (Hch 0%nat ltac:(lia)) as (cd & Hcd & _ & Hcells).
  rewrite Nat.div_1_r in L, Hcells.
  exists (Uint8Array frame), buf, cd.
  split; [apply decodeBase64_realtimeInput|].
  split; [exact D|]. split; [by rewrite L|]. split; [exact Hcd|].
  intros i x Hx.
  pose proof (lookup_lt_Some _ _ _ Hx) as Hi.
  destruct (Hcells i ltac:(lia)) as (z & Hz & Hcell).
  replace (i * 1 + 0)%nat with i in Hz by lia.
  unfold frame in Hz. rewrite (onaudioprocess_lookup _ _ _ Hx) in Hz.
  injection Hz as <-. split; [exact Hcell|].
  intros Hl Hu. unfold ToInt16.
  rewrite wrap16_small by by apply truncate_scaled_range.
  destruct (truncate_near (x * 32768)) as [A B].
  revert A B. generalize (inject_Z (truncate (x * 32768))). intros y A B.
  clear -A B. split.
  - apply Qlt_shift_div_l; [done|]. lra.
  - apply Qlt_shift_div_r; [done|]. lra.
Qed.

Lemma sent_frame_decodes_witness :
  let frame := [1 # 2; -1 # 3; 0]%Q in
  frame ≠ [] ∧ supportsRate (mkAudioContext 24000) 24000 = true
  ∧ ∃ buf, decodeBase64 (realtimeInput frame) ≫= (fun bytes =>
             Some (decodeAudioData bytes (mkAudioContext 24000) 24000 1))
           = Some (ret buf)
      ∧ bufferLength buf = 3%nat.
Proof.
  intros frame.
  assert (H : frame ≠ []) by done.
  assert (Hr : supportsRate (mkAudioContext 24000) 24000 = true) by reflexivity.
  destruct (sent_frame_decodes frame (mkAudioContext 24000) 24000 H Hr)
    as (bytes & buf & cd & A & B & C & _).
  split; [exact H|]. split; [exact Hr|]. exists buf. split; [|exact C].
  rewrite A. simpl. by rewrite B.
Defined.

End CodecSpec.

(** ** Data URLs *)

Module DataUrlSpec.
Import Codec.
Import Stdlib.Strings.Ascii.

Lemma chars_append (a b : string) :
  String.list_ascii_of_string (String.append a b)
  = String.list_ascii_of_string a ++ String.list_ascii_of_string b.
Proof. induction a as [|c a IH]; [done|]. simpl. by rewrite IH. Qed.

Lemma split_none sep s : includes sep s = false → split sep s = [s].
Proof.
  induction s as [|c s IH]; [done|].
  simpl. rewrite Ascii.eqb_sym. intros [Hc Hs]%orb_false_elim.
  by rewrite Hc, (IH Hs).
Qed.

Lemma split_first sep a b :
  includes sep a = false → split sep (a ++ sep :: b) = a :: split sep b.
Proof.
  induction a as [|c a IH]; intros Ha.
  - simpl. by rewrite Ascii.eqb_refl.
  - simpl in Ha. apply orb_false_elim in Ha as [Hc Ha].
    simpl. rewrite Ascii.eqb_sym, Hc. by rewrite (IH Ha).
Qed.

Lemma includes_app sep a b : includes sep (a ++ b) = includes sep a || includes sep b.
Proof. apply existsb_app. Qed.

(** The pieces of a data URL: the scheme and media type, then the pieces
    of the payload. *)
Lemma split_dataUrl (data : string) :
  split "," (String.list_ascii_of_string (dataUrl data))
  = String.list_ascii_of_string "data:image/png;base64"
      :: split "," (String.list_ascii_of_string data).
Proof.
  unfold dataUrl. rewrite chars_append.
  exact (split_first "," (String.list_ascii_of_string "data:image/png;base64")
           (String.list_ascii_of_string data) eq_refl).
Qed.

Lemma includes_dataUrl (data : string) :
  includes "," (String.list_ascii_of_string (dataUrl data)) = true.
Proof. unfold dataUrl. by rewrite chars_append, includes_app. Qed.

(** X16.  gemini.ts, lines 71, 75, 87 and 93.  An image that [generateVisual]
    or [editVisual] returned goes back to the service, through
    [editVisual] or [generateVideo], as the payload it came with when
    that payload holds no comma (base64 has none); of a payload with a
    comma, only what precedes the first comma is sent. *)
Theorem imagePayload_dataUrl (data : string) :
  (includes "," (String.list_ascii_of_string data) = false →
   imagePayload (dataUrl data) = Some data)
  ∧ (∀ a b : string,
       data = String.append a (String.String "," b) →
       includes "," (String.list_ascii_of_string a) = false →
       imagePayload (dataUrl data) = Some a).
Proof.
  unfold imagePayload. rewrite includes_dataUrl, split_dataUrl. split.
  - intros H. rewrite (split_none _ _ H). simpl.
    by rewrite String.string_of_list_ascii_of_string.
  - intros a b -> Ha. rewrite chars_append.
    change (String.list_ascii_of_string (String.String "," b))
      with (","%char :: String.list_ascii_of_string b).
    rewrite (split_first _ _ _ Ha). simpl.
    by rewrite String.string_of_list_ascii_of_string.
Qed.

Lemma imagePayload_dataUrl_witness :
  imagePayload (dataUrl "iVBORw0KGgo=") = Some "iVBORw0KGgo="%string
  ∧ imagePayload (dataUrl "iVBO,Rw0K") = Some "iVBO"%string.
Proof.
  split.
  - exact (proj1 (imagePayload_dataUrl "iVBORw0KGgo=") eq_refl).
  - exact (proj2 (imagePayload_dataUrl "iVBO,Rw0K") "iVBO" "Rw0K"
             eq_refl eq_refl).
Defined.

End DataUrlSpec.

(** ** The chat log *)

Module ChatBotSpec.
Import ChatBot.

Lemma by_role_add r m ms :
  length (by_role r (ms ++ [m]))
  = (length (by_role r ms) + if decide (role m = r) then 1 else 0)%nat.
Proof.
  unfold by_role. rewrite filter_app, length_app, filter_cons, filter_nil.
  by destruct (decide (role m = r)).
Qed.

Lemma handleSend_cases rendered text c :
  handleSend rendered text c = c
  ∨ ∃ messageToSend,
      falsy (trim messageToSend) = false
      ∧ isLoading rendered = false
      ∧ handleSend rendered text c
        = mkChat (setIsLoading true
                    (addMessage (mkChatMessage user messageToSend None)
                       (setInput [] (hooks c))))
                 (inFlight c ++ [mkCall messageToSend (useThinking rendered)
                                        (useGrounding rendered)]).
Proof.
  unfold handleSend.
  set (m := match text with
            | Some t => if falsy t then input rendered else t
            | None => input rendered
            end).
  destruct (falsy (trim m)) eqn:E1; [by left|].
  destruct (isLoading rendered) eqn:E2; [by left|].
  right. by exists m.
Qed.

Lemma balanced_handleSend rendered text c :
  balanced c → balanced (handleSend rendered text c).
Proof.
  intros Hb.
  destruct (handleSend_cases rendered text c) as [->|(m & _ & _ & ->)]; [done|].
  unfold balanced in *. simpl.
  rewrite !by_role_add, length_app. simpl. lia.
Qed.

Lemma balanced_settle i o c : balanced c → balanced (settle i o c).
Proof.
  intros Hb. unfold settle.
  destruct (inFlight c !! i) as [call|] eqn:E; [|done].
  unfold balanced in *. simpl.
  rewrite !by_role_add, length_delete by eauto.
  pose proof (lookup_lt_Some _ _ _ E).
  replace (role (reply o)) with model by by destruct o.
  simpl. lia.
Qed.

Lemma balanced_handle e c : balanced c → balanced (handle e c).
Proof.
  intros Hb. destruct e as [v|r|r|r|i o| |r [t|]]; simpl; try done.
  - by apply balanced_handleSend.
  - by apply balanced_settle.
  - unfold transcribed, balanced. simpl.
    by apply (balanced_handleSend r (Some t)).
Qed.

Lemma balanced_run evs c : balanced c → balanced (run evs c).
Proof.
  revert c. induction evs as [|e evs IH]; intros c Hb; [done|].
  simpl. by apply IH, balanced_handle.
Qed.

(** X17.  ChatBot.tsx, [handleSend] and [recorder.onstop].  Whatever happens
    to the component, in whatever order and from whatever render the
    handlers come, the user messages of the log are as many as the
    messages of the model after the greeting plus the calls of
    [getSmartChat] that have not settled: a call that settles, also one
    that fails, adds exactly one message of the model. *)
Theorem every_question_is_answered_once (evs : list Event) :
  let c := run evs initial in
  (length (by_role user (messages (hooks c))) + 1
   = length (by_role model (messages (hooks c))) + length (inFlight c))%nat.
Proof. intros c. by apply (balanced_run evs initial). Qed.

(** X18.  ChatBot.tsx, lines 286 to 295 with 262 to 271.  A spoken message
    that is not blank, transcribed for a handler created while nothing
    was loading, is added to the log and sent, and the loading flag is
    off afterwards although the call is in flight: the [finally] block of
    [onstop] runs after [handleSend] has set the flag.  The same message
    sent by [handleSend] alone leaves the flag on. *)
Theorem spoken_message_hides_loading (rendered : Hooks) (text : jsstring)
    (c : Chat) :
  isLoading rendered = false → falsy (trim text) = false →
  let call := mkCall text (useThinking rendered) (useGrounding rendered) in
  let c' := transcribed rendered (Some text) (onstop c) in
  inFlight c' = inFlight c ++ [call]
  ∧ messages (hooks c')
    = messages (hooks c) ++ [mkChatMessage user text None]
  ∧ isLoading (hooks c') = false
  ∧ isLoading (hooks (handleSend rendered (Some text) c)) = true.
Proof.
  intros Hl Ht call c'.
  assert (Hf : falsy text = false).
  { destruct text; [done|done]. }
  unfold c', transcribed, handleSend. rewrite Hf, Ht, Hl. by simpl.
Qed.

Lemma spoken_message_hides_loading_witness :
  let rendered := hooks initial in
  let c' := transcribed rendered (Some (units "breathe")) (onstop initial) in
  isLoading rendered = false
  ∧ length (inFlight c') = 1%nat
  ∧ isLoading (hooks c') = false.
Proof.
  intros rendered c'.
  assert (H1 : isLoading rendered = false) by reflexivity.
  assert (H2 : falsy (trim (units "breathe")) = false) by reflexivity.
  destruct (spoken_message_hides_loading rendered (units "breathe") initial H1 H2)
    as (A & _ & B & _).
  split; [exact H1|]. split; [|exact B].
  unfold c'. by rewrite A.
Defined.

End ChatBotSpec.
